(** * Real-time coordination layer of the junk-removal marketplace backend

    A shallow embedding of the Socket.IO service module
    (src/unnamed/part_004): the handshake middleware, the handlers the
    [connection] callback registers on every socket, and the exported
    emit helpers, together with the few Socket.IO primitives they call
    ([socket.join], [socket.leave], [socket.emit], [socket.to(room).emit],
    [io.to(room).emit]).

    Every handler is run to completion as one step (the interleaving of two
    handlers at an [await] is not modelled).  Console output is left out,
    and with it the [error] listener of line 295, which only logs. *)

From Stdlib Require Import ZArith QArith Qround Ascii Lqa.
From stdpp Require Import gmap strings list fin_maps pretty.

Local Open Scope string_scope.
Local Open Scope Z_scope.

(** ** JavaScript values *)

(** The values that travel through the module: what a client sends in an
    event payload, what a token carries, what a collaborator returns.
    Numbers are the integral ones (ids, radii, counters); the coordinates
    given to [Math.round] have their own type below. *)
#[warnings="-register-all"]
Inductive JSVal : Type :=
  | JUndefined
  | JNull
  | JBool (b : bool)
  | JInt (z : Z)
  | JStr (s : string)
  | JObj (fields : list (string * JSVal)).

(** ToBoolean, as used by [if (!token)], [if (!hasAccess)], [if (io)]. *)
Definition truthy (v : JSVal) : bool :=
  match v with
  | JUndefined | JNull => false
  | JBool b => b
  | JInt z => negb (z =? 0)
  | JStr s => negb (String.eqb s "")
  | JObj _ => true
  end.

(** ToString, as applied by a template literal to a value that converts
    (see [prints] below).  [pretty] prints an integer in decimal, which is
    what Number::toString gives below 2^53. *)
Definition ToString (v : JSVal) : string :=
  match v with
  | JUndefined => "undefined"
  | JNull => "null"
  | JBool true => "true"
  | JBool false => "false"
  | JInt z => pretty z
  | JStr s => s
  | JObj _ => "[object Object]"
  end.

Fixpoint assoc (k : string) (fs : list (string * JSVal)) : JSVal :=
  match fs with
  | [] => JUndefined
  | (k', v) :: fs' => if String.eqb k k' then v else assoc k fs'
  end.

(** An own key of an object. *)
Fixpoint has_key (k : string) (fs : list (string * JSVal)) : bool :=
  match fs with
  | [] => false
  | (k', _) :: fs' => String.eqb k k' || has_key k fs'
  end.

(** The values a template literal or [new Date] can convert.  An object
    with an own [toString] key cannot be converted: the key hides
    [Object.prototype.toString], what a client sends holds no function, and
    the conversion throws a TypeError.  [ToString] is the conversion of the
    values that print; what is stated below of a literal on a value of a
    client is stated for a value that prints. *)
Definition prints (v : JSVal) : bool :=
  match v with
  | JObj fs => negb (has_key "toString" fs)
  | _ => true
  end.

(** The result of evaluating an expression or a call: a value, or an
    exception on its way to the nearest [catch]. *)
Inductive Outcome (A : Type) : Type :=
  | Returned (a : A)
  | Thrown (e : string).
Arguments Returned {A} a.
Arguments Thrown {A} e.

(** Property read [v.k]: a TypeError on [undefined] and [null], the field of
    an object, [undefined] on the other primitives. *)
Definition get_prop (v : JSVal) (k : string) : Outcome JSVal :=
  match v with
  | JUndefined | JNull => Thrown "TypeError"
  | JObj fs => Returned (assoc k fs)
  | _ => Returned JUndefined
  end.

(** A destructuring default, [{ k = d }]: the default replaces [undefined]
    only. *)
Definition or_default (v d : JSVal) : JSVal :=
  match v with JUndefined => d | _ => v end.

(** ** Coordinates and [Math.round] *)

(** A Number given as a coordinate: a finite double is a rational. *)
Inductive JSNumber : Type :=
  | NaN
  | PosInf
  | NegInf
  | Fin (q : Q).

(** The integral Numbers, the range of [Math.round]. *)
Inductive Integral : Type :=
  | INaN
  | IPosInf
  | INegInf
  | IInt (z : Z).

(** [Math.round]: the nearest integer, a tie going towards +Infinity. *)
Definition Math_round (x : JSNumber) : Integral :=
  match x with
  | NaN => INaN
  | PosInf => IPosInf
  | NegInf => INegInf
  | Fin q => IInt (Qfloor (q + (1 # 2)))
  end.

Definition Integral_ToString (n : Integral) : string :=
  match n with
  | INaN => "NaN"
  | IPosInf => "Infinity"
  | INegInf => "-Infinity"
  | IInt z => pretty z
  end.

(** The quantization rule in the words of the specification,
    [bucket = round(coordinate)]: the bucket of a finite coordinate is the
    integer nearest to it, the upper one of two that are equally near; a
    coordinate that is no finite number has itself as bucket.  This is
    written without [Math_round], to compare the two. *)
Definition rounded_to (x : JSNumber) (b : Integral) : bool :=
  match x, b with
  | NaN, INaN | PosInf, IPosInf | NegInf, INegInf => true
  | Fin q, IInt k =>
      Qle_bool (inject_Z k - (1 # 2)) q
      && negb (Qle_bool (inject_Z k + (1 # 2)) q)
  | _, _ => false
  end.

(** Two coordinates of one bucket. *)
Definition same_rounded (x y : JSNumber) : Prop :=
  ∃ b, rounded_to x b = true ∧ rounded_to y b = true.

(** ** The Socket.IO server *)

(** A connection is named by the id the transport hands out, a [nat] here.
    The record holds the fields the module keeps on a socket object.
    [currentChatRoom] is read by the disconnect handler; no line of the
    module assigns it. *)
Record Socket : Type := mkSocket {
  userId : JSVal;
  userRole : JSVal;
  userName : JSVal;
  currentChatRoom : JSVal;
  locationPreference : option (JSNumber * JSNumber * JSVal)
}.

(** The namespace: its connected sockets and the adapter's room table.  The
    room every socket has under its own id is left out: no room name the
    module builds can be a connection id. *)
Record Server : Type := mkServer {
  sockets : gmap nat Socket;
  rooms : gmap string (gset nat)
}.

Definition new_server : Server := {| sockets := ∅; rooms := ∅ |}.

Definition members (st : Server) (room : string) : gset nat :=
  default ∅ (rooms st !! room).

(** What leaves the module, in order: a packet to a set of connections, the
    refusal of a handshake, the call of a collaborator. *)
Inductive Effect : Type :=
  | Emit (recipients : gset nat) (event : string) (payload : JSVal)
  | ConnectError (sid : nat) (message : string)
  | Call (method : string) (args : list JSVal).

(** Adapter [addAll]: the room is created by its first member. *)
Definition adapter_add (sid : nat) (room : string) (st : Server) : Server :=
  {| sockets := sockets st;
     rooms := <[room := {[sid]} ∪ members st room]> (rooms st) |}.

(** Adapter [del]: a room that becomes empty is dropped. *)
Definition adapter_del (sid : nat) (room : string) (st : Server) : Server :=
  {| sockets := sockets st;
     rooms := match rooms st !! room with
              | Some ms =>
                  if decide (ms ∖ {[sid]} = ∅) then delete room (rooms st)
                  else <[room := ms ∖ {[sid]}]> (rooms st)
              | None => rooms st
              end |}.

(** Adapter [delAll]: the connection leaves every room. *)
Definition adapter_delAll (sid : nat) (st : Server) : Server :=
  {| sockets := sockets st;
     rooms := filter (λ kv, kv.2 ≠ ∅) ((λ ms, ms ∖ {[sid]}) <$> rooms st) |}.

(** ** Handler bodies: state, trace and exceptions *)

(** A handler body runs on the server state, appends to the trace and ends
    with a value or a thrown exception.  What was done before a [throw]
    stays done. *)
Record Res (A : Type) : Type := mkRes {
  final : Server;
  trace : list Effect;
  outcome : Outcome A
}.
Arguments mkRes {A} final trace outcome.
Arguments final {A} r.
Arguments trace {A} r.
Arguments outcome {A} r.

Definition M (A : Type) : Type := Server → Res A.

Definition ret {A} (a : A) : M A := λ st, mkRes st [] (Returned a).

Definition throw {A} (e : string) : M A := λ st, mkRes st [] (Thrown e).

Definition bind {A B} (m : M A) (k : A → M B) : M B := λ st,
  let r := m st in
  match outcome r with
  | Returned a =>
      let r' := k a (final r) in
      mkRes (final r') (trace r ++ trace r') (outcome r')
  | Thrown e => mkRes (final r) (trace r) (Thrown e)
  end.

(** [try { m } catch (error) { h }] *)
Definition try_catch {A} (m : M A) (h : string → M A) : M A := λ st,
  let r := m st in
  match outcome r with
  | Returned a => r
  | Thrown e =>
      let r' := h e (final r) in
      mkRes (final r') (trace r ++ trace r') (outcome r')
  end.

Notation "'do' x <- m ; k" := (bind m (λ x, k))
  (at level 10, x name, m at level 100, k at level 200).
Notation "m ;; k" := (bind m (λ _, k))
  (at level 100, k at level 200, right associativity).

Definition lift {A} (o : Outcome A) : M A := λ st, mkRes st [] o.

Definition tell (e : Effect) : M unit := λ st, mkRes st [e] (Returned tt).

Definition modify (f : Server → Server) : M unit := λ st,
  mkRes (f st) [] (Returned tt).

(** [await Service.method(args)]: the call is recorded, then it returns or
    throws. *)
Definition call {A} (method : string) (args : list JSVal) (o : Outcome A) : M A :=
  tell (Call method args) ;; lift o.

(** *** The Socket.IO primitives the handlers use *)

Definition socket_join (sid : nat) (room : string) : M unit :=
  modify (adapter_add sid room).

Definition socket_leave (sid : nat) (room : string) : M unit :=
  modify (adapter_del sid room).

(** [socket.emit(event, payload)]: to this connection only. *)
Definition socket_emit (sid : nat) (event : string) (payload : JSVal) : M unit :=
  tell (Emit {[sid]} event payload).

(** [socket.to(room).emit(event, payload)]: to the room, the socket itself
    excepted. *)
Definition socket_to_emit (sid : nat) (room : string) (event : string)
    (payload : JSVal) : M unit := λ st,
  mkRes st [Emit (members st room ∖ {[sid]}) event payload] (Returned tt).

(** [io.to(room).emit(event, payload)]: to every member of the room. *)
Definition io_to_emit (room : string) (event : string) (payload : JSVal) : M unit :=
  λ st, mkRes st [Emit (members st room) event payload] (Returned tt).

(** ** What the module finds in scope *)

(** [./chatService]: the methods the handlers call on [ChatService]. *)
Record ChatServiceT : Type := {
  verifyChatAccess : JSVal → JSVal → JSVal → Outcome JSVal;
  getRecentMessages : JSVal → Outcome JSVal;
  saveMessage : JSVal → Outcome JSVal;
  getOtherParticipants : JSVal → JSVal → Outcome (list JSVal)
}.

(** [./jobService]: the methods the handlers call on [JobService]. *)
Record JobServiceT : Type := {
  verifyDriverJobAccess : JSVal → JSVal → Outcome JSVal;
  updateDriverLocation : JSVal → JSVal → JSVal → JSVal → Outcome JSVal;
  updateJobStatus : JSVal → JSVal → JSVal → Outcome JSVal;
  getJobCustomerId : JSVal → Outcome JSVal;
  canDriverBid : JSVal → JSVal → Outcome JSVal;
  placeBid : JSVal → Outcome JSVal
}.

(** [./notificationService] *)
Record NotificationServiceT : Type := {
  sendPushNotification : JSVal → JSVal → Outcome unit
}.

(** The bindings the module body resolves its free identifiers against.
    [jwt] and [JobService] are bound by the [require] lines 2 and 4.  The
    [require] lines of [ChatService] and [NotificationService] (3 and 5) are
    commented out, so each of the two names is bound only if the global
    object provides it; reading an unbound name throws a ReferenceError.
    [jwt_verify token] stands for [jwt.verify(token, process.env.JWT_SECRET)]. *)
Record Scope : Type := {
  jwt_verify : JSVal → Outcome JSVal;
  ChatService : option ChatServiceT;
  JobService : JobServiceT;
  NotificationService : option NotificationServiceT
}.

(** The module as it is written, with nothing provided on the global
    object. *)
Definition as_written (verify : JSVal → Outcome JSVal) (js : JobServiceT) : Scope :=
  {| jwt_verify := verify;
     ChatService := None;
     JobService := js;
     NotificationService := None |}.

Definition the_ChatService (sc : Scope) : M ChatServiceT :=
  match ChatService sc with
  | Some cs => ret cs
  | None => throw "ReferenceError: ChatService is not defined"
  end.

Definition the_NotificationService (sc : Scope) : M NotificationServiceT :=
  match NotificationService sc with
  | Some ns => ret ns
  | None => throw "ReferenceError: NotificationService is not defined"
  end.

(** ** The handshake middleware, [io.use] (lines 20-36) *)

(** What the middleware hands to [next]: nothing, or an Error. *)
Inductive Next : Type :=
  | NextOk (s : Socket)
  | NextErr (message : string).

(** [token] is [socket.handshake.auth.token].  On success the three fields
    of the socket are set from the decoded payload. *)
Definition auth_middleware (sc : Scope) (token : JSVal) : Next :=
  if negb (truthy token) then
    NextErr "Authentication error: No token provided"
  else
    match jwt_verify sc token with
    | Thrown _ => NextErr "Authentication error: Invalid token"
    | Returned decoded =>
        match get_prop decoded "userId", get_prop decoded "role",
              get_prop decoded "name" with
        | Returned uid, Returned role, Returned name =>
            NextOk {| userId := uid; userRole := role; userName := name;
                      currentChatRoom := JUndefined;
                      locationPreference := None |}
        | _, _, _ => NextErr "Authentication error: Invalid token"
        end
    end.

(** ** The [connection] callback (lines 38-298) *)

Definition user_room (uid : JSVal) : string := "user:" +:+ ToString uid.
Definition chat_room (jobId : JSVal) : string := "chat:" +:+ ToString jobId.

Definition error_payload (message : string) : JSVal :=
  JObj [("message", JStr message)].

(** Line 42, run once when the socket connects. *)
Definition on_connection (sid : nat) (s : Socket) : M unit :=
  socket_join sid (user_room (userId s)).

(** [join-chat] (lines 45-72) *)
Definition on_join_chat (sc : Scope) (sid : nat) (s : Socket) (now : JSVal)
    (jobId : JSVal) : M unit :=
  try_catch
    (do cs <- the_ChatService sc;
     do hasAccess <- call "ChatService.verifyChatAccess"
                       [jobId; userId s; userRole s]
                       (verifyChatAccess cs jobId (userId s) (userRole s));
     if negb (truthy hasAccess) then
       socket_emit sid "error" (error_payload "Access denied to this chat")
     else
       let roomName := chat_room jobId in
       socket_join sid roomName ;;
       do cs' <- the_ChatService sc;
       do recentMessages <- call "ChatService.getRecentMessages" [jobId]
                              (getRecentMessages cs' jobId);
       socket_emit sid "chat-history" recentMessages ;;
       socket_to_emit sid roomName "user-joined"
         (JObj [("userId", userId s); ("userName", userName s);
                ("timestamp", now)]))
    (λ _, socket_emit sid "error" (error_payload "Failed to join chat")).

(** [leave-chat] (lines 75-84) *)
Definition on_leave_chat (sid : nat) (s : Socket) (now : JSVal)
    (jobId : JSVal) : M unit :=
  let roomName := chat_room jobId in
  socket_leave sid roomName ;;
  socket_to_emit sid roomName "user-left"
    (JObj [("userId", userId s); ("userName", userName s);
           ("timestamp", now)]).

(** The body of the push notification of a chat message (line 117):
    [message.length > 50 ? message.substring(0, 50) + '...' : message]. *)
Definition notification_body (message : JSVal) : Outcome JSVal :=
  match message with
  | JUndefined | JNull => Thrown "TypeError"
  | JStr m =>
      if (50 <? String.length m)%nat
      then Returned (JStr (String.substring 0 50 m +:+ "..."))
      else Returned message
  | JObj fs =>
      match assoc "length" fs with
      | JInt n => if 50 <? n then Thrown "TypeError" else Returned message
      | _ => Returned message
      end
  | _ => Returned message
  end.

(** One turn of the [forEach] of lines 114-125. *)
Definition notify_participant (sc : Scope) (s : Socket) (jobId message : JSVal)
    (participant : JSVal) : M unit :=
  do ns <- the_NotificationService sc;
  do to <- lift (get_prop participant "userId");
  do body <- lift (notification_body message);
  let note :=
    JObj [("title", JStr ("New message from " +:+ ToString (userName s)));
          ("body", body);
          ("data", JObj [("type", JStr "chat_message"); ("jobId", jobId);
                         ("senderId", userId s);
                         ("senderName", userName s)])] in
  call "NotificationService.sendPushNotification" [to; note]
    (sendPushNotification ns to note).

Fixpoint forEach {A} (f : A → M unit) (l : list A) : M unit :=
  match l with
  | [] => ret tt
  | x :: l' => f x ;; forEach f l'
  end.

(** The object handed to [ChatService.saveMessage] (lines 99-106). *)
Definition message_draft (s : Socket) (now jobId message type : JSVal) : JSVal :=
  JObj [("jobId", jobId); ("senderId", userId s); ("senderName", userName s);
        ("message", message); ("type", type); ("timestamp", now)].

(** [send-message] (lines 87-131) *)
Definition on_send_message (sc : Scope) (sid : nat) (s : Socket) (now : JSVal)
    (data : JSVal) : M unit :=
  try_catch
    (do jobId <- lift (get_prop data "jobId");
     do message <- lift (get_prop data "message");
     do type0 <- lift (get_prop data "type");
     let type := or_default type0 (JStr "text") in
     do cs <- the_ChatService sc;
     do hasAccess <- call "ChatService.verifyChatAccess"
                       [jobId; userId s; userRole s]
                       (verifyChatAccess cs jobId (userId s) (userRole s));
     if negb (truthy hasAccess) then
       socket_emit sid "error" (error_payload "Access denied")
     else
       do cs1 <- the_ChatService sc;
       let draft := message_draft s now jobId message type in
       do chatMessage <- call "ChatService.saveMessage" [draft]
                           (saveMessage cs1 draft);
       let roomName := chat_room jobId in
       io_to_emit roomName "new-message" chatMessage ;;
       do cs2 <- the_ChatService sc;
       do otherParticipants <- call "ChatService.getOtherParticipants"
                                 [jobId; userId s]
                                 (getOtherParticipants cs2 jobId (userId s));
       forEach (notify_participant sc s jobId message) otherParticipants)
    (λ _, socket_emit sid "error" (error_payload "Failed to send message")).

(** [typing] (lines 134-144), on the two fields of its payload. *)
Definition on_typing (sid : nat) (s : Socket) (now : JSVal)
    (jobId isTyping : JSVal) : M unit :=
  let roomName := chat_room jobId in
  socket_to_emit sid roomName "typing"
    (JObj [("userId", userId s); ("userName", userName s);
           ("isTyping", isTyping); ("timestamp", now)]).

(** A coordinate as it appears inside an outgoing payload is kept as the
    value the client sent. *)
Definition on_update_location (sc : Scope) (sid : nat) (s : Socket) (now : JSVal)
    (data : JSVal) : M unit :=
  try_catch
    (do jobId <- lift (get_prop data "jobId");
     do lat <- lift (get_prop data "lat");
     do lng <- lift (get_prop data "lng");
     do hasAccess <- call "JobService.verifyDriverJobAccess" [jobId; userId s]
                       (verifyDriverJobAccess (JobService sc) jobId (userId s));
     if negb (truthy hasAccess) then
       socket_emit sid "error" (error_payload "Access denied")
     else
       call "JobService.updateDriverLocation" [jobId; userId s; lat; lng]
         (updateDriverLocation (JobService sc) jobId (userId s) lat lng) ;;
       let roomName := chat_room jobId in
       io_to_emit roomName "driver-location"
         (JObj [("jobId", jobId); ("driverId", userId s);
                ("location", JObj [("lat", lat); ("lng", lng)]);
                ("timestamp", now)]))
    (λ _, socket_emit sid "error" (error_payload "Failed to update location")).

(** [job-status-update] (lines 177-223) *)
Definition on_job_status_update (sc : Scope) (sid : nat) (s : Socket)
    (now : JSVal) (data : JSVal) : M unit :=
  try_catch
    (do jobId <- lift (get_prop data "jobId");
     do status <- lift (get_prop data "status");
     do eta <- lift (get_prop data "eta");
     do notes <- lift (get_prop data "notes");
     do hasAccess <- call "JobService.verifyDriverJobAccess" [jobId; userId s]
                       (verifyDriverJobAccess (JobService sc) jobId (userId s));
     if negb (truthy hasAccess) then
       socket_emit sid "error" (error_payload "Access denied")
     else
       let meta := JObj [("driverId", userId s); ("eta", eta); ("notes", notes)] in
       call "JobService.updateJobStatus" [jobId; status; meta]
         (updateJobStatus (JobService sc) jobId status meta) ;;
       let roomName := chat_room jobId in
       io_to_emit roomName "job-update"
         (JObj [("jobId", jobId); ("status", status); ("driverId", userId s);
                ("driverName", userName s); ("eta", eta); ("notes", notes);
                ("timestamp", now)]) ;;
       do customerId <- call "JobService.getJobCustomerId" [jobId]
                          (getJobCustomerId (JobService sc) jobId);
       do ns <- the_NotificationService sc;
       let note :=
         JObj [("title", JStr "Job Status Update");
               ("body", JStr ("Your job status has been updated to: "
                              +:+ ToString status));
               ("data", JObj [("type", JStr "job_update"); ("jobId", jobId);
                              ("status", status)])] in
       call "NotificationService.sendPushNotification" [customerId; note]
         (sendPushNotification ns customerId note))
    (λ _, socket_emit sid "error" (error_payload "Failed to update job status")).

(** [place-bid] (lines 226-265).  [new Date(eta)] is kept as a tagged
    value. *)
Definition on_place_bid (sc : Scope) (sid : nat) (s : Socket) (now : JSVal)
    (data : JSVal) : M unit :=
  try_catch
    (do jobId <- lift (get_prop data "jobId");
     do amount <- lift (get_prop data "amount");
     do eta <- lift (get_prop data "eta");
     do notes <- lift (get_prop data "notes");
     do canBid <- call "JobService.canDriverBid" [jobId; userId s]
                    (canDriverBid (JobService sc) jobId (userId s));
     if negb (truthy canBid) then
       socket_emit sid "error" (error_payload "Cannot bid on this job")
     else
       let draft := JObj [("jobId", jobId); ("driverId", userId s);
                          ("amount", amount); ("eta", JObj [("Date", eta)]);
                          ("notes", notes)] in
       do bid <- call "JobService.placeBid" [draft] (placeBid (JobService sc) draft);
       do customerId <- call "JobService.getJobCustomerId" [jobId]
                          (getJobCustomerId (JobService sc) jobId);
       do ns <- the_NotificationService sc;
       do bidId <- lift (get_prop bid "id");
       let note :=
         JObj [("title", JStr "New Bid Received");
               ("body", JStr (ToString (userName s) +:+ " bid $"
                              +:+ ToString amount +:+ " on your job"));
               ("data", JObj [("type", JStr "new_bid"); ("jobId", jobId);
                              ("bidId", bidId); ("driverId", userId s);
                              ("driverName", userName s); ("amount", amount)])] in
       call "NotificationService.sendPushNotification" [customerId; note]
         (sendPushNotification ns customerId note))
    (λ _, socket_emit sid "error" (error_payload "Failed to place bid")).

(** The room name of a location group (lines 272 and 318). *)
Definition locationKey (lat lng : JSNumber) (radius : JSVal) : string :=
  "location:" +:+ Integral_ToString (Math_round lat) +:+ ":"
  +:+ Integral_ToString (Math_round lng) +:+ ":" +:+ ToString radius.

Definition set_locationPreference (sid : nat)
    (p : JSNumber * JSNumber * JSVal) (st : Server) : Server :=
  {| sockets := alter (λ s, {| userId := userId s; userRole := userRole s;
                               userName := userName s;
                               currentChatRoom := currentChatRoom s;
                               locationPreference := Some p |}) sid (sockets st);
     rooms := rooms st |}.

(** [subscribe-new-jobs] (lines 268-277), on the three fields of its
    payload, [lat] and [lng] as the Numbers [Math.round] sees. *)
Definition on_subscribe_new_jobs (sid : nat) (lat lng : JSNumber)
    (radius0 : JSVal) : M unit :=
  let radius := or_default radius0 (JInt 25) in
  socket_join sid (locationKey lat lng radius) ;;
  modify (set_locationPreference sid (lat, lng, radius)).

(** [disconnect] (lines 280-292).  It runs after Socket.IO has taken the
    socket out of all its rooms. *)
Definition on_disconnect (sid : nat) (s : Socket) (now : JSVal) : M unit :=
  if truthy (currentChatRoom s) then
    socket_to_emit sid (ToString (currentChatRoom s)) "typing"
      (JObj [("userId", userId s); ("userName", userName s);
             ("isTyping", JBool false); ("timestamp", now)])
  else ret tt.

(** ** The exported emit helpers (lines 304-327) *)

(** Each one tests the module variable [io], which is unset until
    [initialize] has run. *)
Definition emitToUser (io : option Server) (uid : JSVal) (event : string)
    (data : JSVal) : list Effect :=
  match io with
  | Some st => [Emit (members st (user_room uid)) event data]
  | None => []
  end.

Definition emitToChat (io : option Server) (jobId : JSVal) (event : string)
    (data : JSVal) : list Effect :=
  match io with
  | Some st => [Emit (members st (chat_room jobId)) event data]
  | None => []
  end.

Definition emitToLocation (io : option Server) (lat lng : JSNumber)
    (radius : JSVal) (event : string) (data : JSVal) : list Effect :=
  match io with
  | Some st => [Emit (members st (locationKey lat lng radius)) event data]
  | None => []
  end.

Definition broadcastToAdmins (io : option Server) (event : string)
    (data : JSVal) : list Effect :=
  match io with
  | Some st => [Emit (members st "admin") event data]
  | None => []
  end.

(** ** The module as a transition system *)

(** What a connected client can send.  [Typing] and [SubscribeNewJobs]
    carry the fields of a payload that destructures, [SubscribeNewJobs]
    with numbers as coordinates. *)
Inductive ClientEvent : Type :=
  | JoinChat (jobId : JSVal)
  | LeaveChat (jobId : JSVal)
  | SendMessage (data : JSVal)
  | Typing (jobId isTyping : JSVal)
  | UpdateLocation (data : JSVal)
  | JobStatusUpdate (data : JSVal)
  | PlaceBid (data : JSVal)
  | SubscribeNewJobs (lat lng : JSNumber) (radius : JSVal).

(** What happens to the module: [initialize] is called, a client opens a
    connection with a token, a connected client sends an event, a connection
    closes, another module calls an emit helper.  [now] is the clock the
    handler reads. *)
Inductive Input : Type :=
  | Initialize
  | Connect (sid : nat) (token : JSVal)
  | Inbound (sid : nat) (now : JSVal) (ev : ClientEvent)
  | Disconnect (sid : nat) (now : JSVal)
  | CallEmitToUser (uid : JSVal) (event : string) (data : JSVal)
  | CallEmitToChat (jobId : JSVal) (event : string) (data : JSVal)
  | CallEmitToLocation (lat lng : JSNumber) (radius : JSVal) (event : string)
      (data : JSVal)
  | CallBroadcastToAdmins (event : string) (data : JSVal).

(** The handler registered for each event name. *)
Definition handler (sc : Scope) (sid : nat) (s : Socket) (now : JSVal)
    (ev : ClientEvent) : M unit :=
  match ev with
  | JoinChat jobId => on_join_chat sc sid s now jobId
  | LeaveChat jobId => on_leave_chat sid s now jobId
  | SendMessage data => on_send_message sc sid s now data
  | Typing jobId isTyping => on_typing sid s now jobId isTyping
  | UpdateLocation data => on_update_location sc sid s now data
  | JobStatusUpdate data => on_job_status_update sc sid s now data
  | PlaceBid data => on_place_bid sc sid s now data
  | SubscribeNewJobs lat lng radius => on_subscribe_new_jobs sid lat lng radius
  end.

Definition add_socket (sid : nat) (s : Socket) (st : Server) : Server :=
  {| sockets := <[sid := s]> (sockets st); rooms := rooms st |}.

Definition remove_socket (sid : nat) (st : Server) : Server :=
  {| sockets := delete sid (sockets st); rooms := rooms st |}.

(** A handshake: the middleware runs first; only when it calls [next()]
    does Socket.IO add the socket to the namespace and fire [connection].
    On [next(err)] the client gets a connect error and no socket exists. *)
Definition connect (sc : Scope) (sid : nat) (token : JSVal) : M unit :=
  match auth_middleware sc token with
  | NextErr message => tell (ConnectError sid message)
  | NextOk s => modify (add_socket sid s) ;; on_connection sid s
  end.

(** A packet of a client reaches a handler only through the socket the
    namespace holds for it. *)
Definition inbound (sc : Scope) (sid : nat) (now : JSVal) (ev : ClientEvent)
    : M unit := λ st,
  match sockets st !! sid with
  | Some s => handler sc sid s now ev st
  | None => ret tt st
  end.

(** A close: Socket.IO leaves all rooms and drops the socket, then fires
    [disconnect]. *)
Definition disconnect (sid : nat) (now : JSVal) : M unit := λ st,
  match sockets st !! sid with
  | Some s =>
      (modify (adapter_delAll sid) ;; modify (remove_socket sid) ;;
       on_disconnect sid s now) st
  | None => ret tt st
  end.

(** One input, on the module variable [io]. *)
Definition step (sc : Scope) (io : option Server) (i : Input)
    : option Server * list Effect :=
  let exec (m : M unit) :=
    match io with
    | Some st => let r := m st in (Some (final r), trace r)
    | None => (None, [])
    end in
  match i with
  | Initialize => (Some new_server, [])
  | Connect sid token =>
      match io with
      | Some st =>
          match sockets st !! sid with
          | None => exec (connect sc sid token)
          | Some _ => (io, [])
          end
      | None => (None, [])
      end
  | Inbound sid now ev => exec (inbound sc sid now ev)
  | Disconnect sid now => exec (disconnect sid now)
  | CallEmitToUser uid event data => (io, emitToUser io uid event data)
  | CallEmitToChat jobId event data => (io, emitToChat io jobId event data)
  | CallEmitToLocation lat lng radius event data =>
      (io, emitToLocation io lat lng radius event data)
  | CallBroadcastToAdmins event data => (io, broadcastToAdmins io event data)
  end.

(** A run from a state: the state reached and everything that left the
    module on the way. *)
Fixpoint run (sc : Scope) (io : option Server) (inputs : list Input)
    : option Server * list Effect :=
  match inputs with
  | [] => (io, [])
  | i :: inputs' =>
      let '(io1, out1) := step sc io i in
      let '(io2, out2) := run sc io1 inputs' in
      (io2, (out1 ++ out2)%list)
  end.

(** The states the module can be in. *)
Inductive reachable (sc : Scope) : option Server → Prop :=
  | reachable_start : reachable sc None
  | reachable_step io i : reachable sc io → reachable sc (step sc io i).1.

(** ** Observations on a trace *)

(** What one connection receives, in order. *)
Fixpoint inbox (c : nat) (out : list Effect) : list (string * JSVal) :=
  match out with
  | [] => []
  | Emit rs event payload :: out' =>
      if decide (c ∈ rs) then (event, payload) :: inbox c out' else inbox c out'
  | _ :: out' => inbox c out'
  end.

(** The connection receives an event of that name. *)
Definition receives (c : nat) (event : string) (out : list Effect) : Prop :=
  ∃ payload, (event, payload) ∈ inbox c out.

(** The packets of a trace, the collaborator calls dropped. *)
Fixpoint packets (out : list Effect) : list Effect :=
  match out with
  | [] => []
  | Call _ _ :: out' => packets out'
  | e :: out' => e :: packets out'
  end.

(** The names of the collaborator methods called. *)
Fixpoint calls (out : list Effect) : list string :=
  match out with
  | [] => []
  | Call method _ :: out' => method :: calls out'
  | _ :: out' => calls out'
  end.

(** The access check of [join-chat] and [send-message] as the handler gets
    it: the answer of [ChatService.verifyChatAccess], or the exception of
    the call or of reading [ChatService]. *)
Definition access_check (sc : Scope) (s : Socket) (jobId : JSVal) : Outcome JSVal :=
  match ChatService sc with
  | Some cs => verifyChatAccess cs jobId (userId s) (userRole s)
  | None => Thrown "ReferenceError: ChatService is not defined"
  end.

Definition access_granted (sc : Scope) (s : Socket) (jobId : JSVal) : bool :=
  match access_check sc s jobId with
  | Returned v => truthy v
  | Thrown _ => false
  end.

(** The save of [send-message] as the handler gets it. *)
Definition persist (sc : Scope) (draft : JSVal) : Outcome JSVal :=
  match ChatService sc with
  | Some cs => saveMessage cs draft
  | None => Thrown "ReferenceError: ChatService is not defined"
  end.

(** The payload the login and register routes sign (src/unnamed/part_001,
    lines 28-32 and 62-66), with the two claims [jwt.sign] adds for
    [expiresIn]. *)
Definition login_token_payload (id email role iat exp : JSVal) : JSVal :=
  JObj [("id", id); ("email", email); ("role", role); ("iat", iat);
        ("exp", exp)].

(** A string without a colon. *)
Fixpoint colon_free (s : string) : bool :=
  match s with
  | EmptyString => true
  | String a s' => negb (Ascii.eqb a ":"%char) && colon_free s'
  end.

(** ** Predicates on handler bodies *)

(** The result of a continuation, with what was sent before it. *)
Definition after {A} (e : list Effect) (r : Res A) : Res A :=
  mkRes (final r) (e ++ trace r) (outcome r).

(** A computation that changes no state and sends no packet. *)
Definition quiet {A} (m : M A) : Prop :=
  ∀ st, final (m st) = st ∧ packets (trace (m st)) = [].

(** A computation that keeps a property of the state. *)
Definition preserves {A} (P : Server → Prop) (m : M A) : Prop :=
  ∀ st, P st → P (final (m st)).

(** Nobody is in the room of the admin broadcast. *)
Definition admin_empty (st : Server) : Prop := members st "admin" = ∅.

(** Nobody is in a chat room. *)
Definition chat_rooms_empty (st : Server) : Prop :=
  ∀ jobId, members st (chat_room jobId) = ∅.

(** ** Decimal numerals *)

Definition is_digit (a : ascii) : bool :=
  ((48 <=? N_of_ascii a) && (N_of_ascii a <=? 57))%N.

Fixpoint digits (s : string) : bool :=
  match s with
  | EmptyString => true
  | String a s' => is_digit a && digits s'
  end.

(** Digits, after a minus sign or not. *)
Definition numeral (s : string) : bool :=
  match s with
  | String a s' => (Ascii.eqb a "-" && digits s') || digits s
  | EmptyString => true
  end.

(** ** Worked scenarios *)

(** A verifier that knows four tokens: a customer, a driver, an admin, and
    a token of the login route. *)
Definition fixture_verify (token : JSVal) : Outcome JSVal :=
  match token with
  | JStr t =>
      if String.eqb t "tok-ann" then
        Returned (JObj [("userId", JInt 1); ("role", JStr "customer");
                        ("name", JStr "Ann")])
      else if String.eqb t "tok-bob" then
        Returned (JObj [("userId", JInt 2); ("role", JStr "driver");
                        ("name", JStr "Bob")])
      else if String.eqb t "tok-root" then
        Returned (JObj [("userId", JInt 3); ("role", JStr "admin");
                        ("name", JStr "Root")])
      else if String.eqb t "tok-login" then
        Returned (login_token_payload (JInt 7) (JStr "eve@example.org")
                    (JStr "customer") (JInt 1700000000) (JInt 1700003600))
      else Thrown "JsonWebTokenError: invalid token"
  | _ => Thrown "JsonWebTokenError: jwt must be a string"
  end.

(** A job service none of whose methods is there to call. *)
Definition missing_JobService : JobServiceT :=
  {| verifyDriverJobAccess := λ _ _, Thrown "TypeError";
     updateDriverLocation := λ _ _ _ _, Thrown "TypeError";
     updateJobStatus := λ _ _ _, Thrown "TypeError";
     getJobCustomerId := λ _, Thrown "TypeError";
     canDriverBid := λ _ _, Thrown "TypeError";
     placeBid := λ _, Thrown "TypeError" |}.

(** A chat service with a fixed answer to the access check and a store that
    works or not. *)
Definition fixture_ChatService (grant store_up : bool) : ChatServiceT :=
  {| verifyChatAccess := λ _ _ _, Returned (JBool grant);
     getRecentMessages := λ _, Returned (JStr "history");
     saveMessage := λ draft,
       if store_up then Returned (JObj [("id", JInt 100); ("saved", draft)])
       else Thrown "SequelizeConnectionError";
     getOtherParticipants := λ _ _, Returned [] |}.

(** The module with a chat service provided. *)
Definition fixture_scope (grant store_up : bool) : Scope :=
  {| jwt_verify := fixture_verify;
     ChatService := Some (fixture_ChatService grant store_up);
     JobService := missing_JobService;
     NotificationService := None |}.

Definition fixture_as_written : Scope :=
  as_written fixture_verify missing_JobService.

(** The server a run ends with. *)
Definition server_after (sc : Scope) (inputs : list Input) : Server :=
  default new_server (run sc None inputs).1.

Definition ann : Socket :=
  {| userId := JInt 1; userRole := JStr "customer"; userName := JStr "Ann";
     currentChatRoom := JUndefined; locationPreference := None |}.

Definition bob : Socket :=
  {| userId := JInt 2; userRole := JStr "driver"; userName := JStr "Bob";
     currentChatRoom := JUndefined; locationPreference := None |}.

(** Ann is connection 1, Bob connection 2, Root connection 3. *)
Definition three_connected : list Input :=
  [Initialize; Connect 1 (JStr "tok-ann"); Connect 2 (JStr "tok-bob");
   Connect 3 (JStr "tok-root")].

(** Ann and Bob have joined the chat of job 5. *)
Definition two_in_chat : Server :=
  server_after (fixture_scope true true)
    (three_connected ++ [Inbound 1 (JInt 10) (JoinChat (JInt 5));
                         Inbound 2 (JInt 11) (JoinChat (JInt 5))]).

(** Only Bob has joined the chat of job 5. *)
Definition bob_in_chat : Server :=
  server_after (fixture_scope true true)
    (three_connected ++ [Inbound 2 (JInt 11) (JoinChat (JInt 5))]).

(** Ann and Bob subscribed at the same spot, with radius 25 and 50. *)
Definition two_radii : Server :=
  server_after fixture_as_written
    (three_connected ++
     [Inbound 1 (JInt 10) (SubscribeNewJobs (Fin 40) (Fin (-74)) (JInt 25));
      Inbound 2 (JInt 11) (SubscribeNewJobs (Fin 40) (Fin (-74)) (JInt 50))]).

(** The payload of a [send-message] for job 5. *)
Definition hello5 : list (string * JSVal) :=
  [("jobId", JInt 5); ("message", JStr "hello")].


(** ** Four sentences of the specification, as it words them *)

(** A [send-message] of a member of the chat room of its job reaches every
    member, the sender too, and nobody else. *)
Definition send_reaches_room (sc : Scope) (st : Server) (A B : nat)
    (now : JSVal) (fs : list (string * JSVal)) : Prop :=
  let room := chat_room (assoc "jobId" fs) in
  let out := (step sc (Some st) (Inbound A now (SendMessage (JObj fs)))).2 in
  is_Some (sockets st !! A) → A ∈ members st room → B ∈ members st room →
  receives A "new-message" out ∧ receives B "new-message" out ∧
  ∀ c, c ∉ members st room → ¬ receives c "new-message" out.

(** A [send-message] of a connection outside the chat room of its job is
    answered by an error to the sender alone: nothing is saved, nothing
    broadcast, nothing changed. *)
Definition send_needs_membership (sc : Scope) (st : Server) (A : nat)
    (now : JSVal) (fs : list (string * JSVal)) : Prop :=
  let room := chat_room (assoc "jobId" fs) in
  let r := step sc (Some st) (Inbound A now (SendMessage (JObj fs))) in
  is_Some (sockets st !! A) → A ∉ members st room →
  r.1 = Some st ∧
  (∃ payload, packets r.2 = [Emit {[A]} "error" payload]) ∧
  ("ChatService.saveMessage" ∉ calls r.2).

(** After a disconnect, every connection left in a chat room the closed
    connection was in has received a [user-left]. *)
Definition disconnect_notifies_rooms (sc : Scope) (st : Server) (sid : nat)
    (now : JSVal) : Prop :=
  let out := (step sc (Some st) (Disconnect sid now)).2 in
  is_Some (sockets st !! sid) →
  ∀ jobId c, sid ∈ members st (chat_room jobId) →
    c ∈ members st (chat_room jobId) → c ≠ sid →
    receives c "user-left" out.

(** A dispatch for a job at [(lat, lng)] reaches every location group of
    the bucket of the job whose radius covers the distance from the bucket
    centre to the job, whatever distance is meant. *)
Definition dispatch_reaches_covering_groups (st : Server) (lat lng : Q)
    (radius : JSVal) (event : string) (data : JSVal) : Prop :=
  ∀ (dist : Q * Q → Q * Q → Q), (∀ p, dist p p == 0)%Q →
  ∀ (stored : Z) (c : nat),
    (dist (inject_Z (Qfloor (lat + (1 # 2))), inject_Z (Qfloor (lng + (1 # 2))))
          (lat, lng) <= inject_Z stored)%Q →
    c ∈ members st (locationKey (Fin lat) (Fin lng) (JInt stored)) →
    (event, data) ∈ inbox c
      (emitToLocation (Some st) (Fin lat) (Fin lng) radius event data).

(** ** The events, handler by handler *)

(** The [jobId] a handler destructures from its payload; [undefined] where
    there is nothing to destructure. *)
Definition job_of (data : JSVal) : JSVal :=
  match get_prop data "jobId" with
  | Returned jobId => jobId
  | Thrown _ => JUndefined
  end.

(** The one room an event names: the chat room of its job, or the location
    room of a subscription. *)
Definition event_room (ev : ClientEvent) : string :=
  match ev with
  | JoinChat jobId | LeaveChat jobId | Typing jobId _ => chat_room jobId
  | SendMessage data | UpdateLocation data | JobStatusUpdate data
  | PlaceBid data => chat_room (job_of data)
  | SubscribeNewJobs lat lng radius =>
      locationKey lat lng (or_default radius (JInt 25))
  end.

(** Started in a state where [I] holds, the computation ends in one, and
    every effect it leaves satisfies [Q]. *)
Definition sends {A} (I : Server → Prop) (Q : Effect → Prop) (m : M A) : Prop :=
  ∀ st, I st → I (final (m st)) ∧ Forall Q (trace (m st)).

(** An error goes to the connection that caused it. *)
Definition error_to (sid : nat) (e : Effect) : Prop :=
  match e with
  | Emit rs event _ => event = "error" → rs = {[sid]}
  | _ => True
  end.

(** A packet stays within a set of connections. *)
Definition packet_within (S : gset nat) (e : Effect) : Prop :=
  match e with
  | Emit rs _ _ => rs ⊆ S
  | _ => True
  end.

(** The history load of [join-chat] as the handler gets it. *)
Definition recent_messages (sc : Scope) (jobId : JSVal) : Outcome JSVal :=
  match ChatService sc with
  | Some cs => getRecentMessages cs jobId
  | None => Thrown "ReferenceError: ChatService is not defined"
  end.

(** The list of the other participants as [send-message] gets it. *)
Definition other_participants (sc : Scope) (s : Socket) (jobId : JSVal)
    : Outcome (list JSVal) :=
  match ChatService sc with
  | Some cs => getOtherParticipants cs jobId (userId s)
  | None => Thrown "ReferenceError: ChatService is not defined"
  end.

(** An answer that lets the handler go on. *)
Definition granted (o : Outcome JSVal) : bool :=
  match o with
  | Returned v => truthy v
  | Thrown _ => false
  end.

(** The payload of [user-joined] and [user-left]. *)
Definition presence (s : Socket) (now : JSVal) : JSVal :=
  JObj [("userId", userId s); ("userName", userName s); ("timestamp", now)].

(** The access check of [update-location] and [job-status-update]. *)
Definition driver_access (sc : Scope) (s : Socket) (jobId : JSVal) : Outcome JSVal :=
  verifyDriverJobAccess (JobService sc) jobId (userId s).

(** The access check of [place-bid]. *)
Definition bid_access (sc : Scope) (s : Socket) (jobId : JSVal) : Outcome JSVal :=
  canDriverBid (JobService sc) jobId (userId s).

(** The payload of [driver-location] (lines 163-168). *)
Definition location_payload (s : Socket) (now : JSVal)
    (fs : list (string * JSVal)) : JSVal :=
  JObj [("jobId", assoc "jobId" fs); ("driverId", userId s);
        ("location", JObj [("lat", assoc "lat" fs); ("lng", assoc "lng" fs)]);
        ("timestamp", now)].

(** The third argument of [updateJobStatus] (lines 189-193). *)
Definition status_meta (s : Socket) (fs : list (string * JSVal)) : JSVal :=
  JObj [("driverId", userId s); ("eta", assoc "eta" fs);
        ("notes", assoc "notes" fs)].

(** The payload of [job-update] (lines 197-205). *)
Definition status_payload (s : Socket) (now : JSVal)
    (fs : list (string * JSVal)) : JSVal :=
  JObj [("jobId", assoc "jobId" fs); ("status", assoc "status" fs);
        ("driverId", userId s); ("driverName", userName s);
        ("eta", assoc "eta" fs); ("notes", assoc "notes" fs);
        ("timestamp", now)].

(** The argument of [placeBid] (lines 238-244). *)
Definition bid_draft (s : Socket) (fs : list (string * JSVal)) : JSVal :=
  JObj [("jobId", assoc "jobId" fs); ("driverId", userId s);
        ("amount", assoc "amount" fs);
        ("eta", JObj [("Date", assoc "eta" fs)]);
        ("notes", assoc "notes" fs)].

(** The answer to an event whose access check did not pass: the state as it was,
    the check the only collaborator method called, one error to the
    sender. *)
Definition refused_at (method : string) (A : nat) (st : Server)
    (r : option Server * list Effect) : Prop :=
  r.1 = Some st ∧ calls r.2 = [method] ∧
  ∃ message, packets r.2 = [Emit {[A]} "error" (error_payload message)].

(** The only packet is an error to that connection. *)
Definition only_error_to (sid : nat) (e : Effect) : Prop :=
  match e with
  | Emit rs event _ => rs = {[sid]} ∧ event = "error"
  | _ => True
  end.

(** [leave-chat], [typing] and [subscribe-new-jobs] are handled outside
    any [try]: a template literal that cannot convert its value throws out
    of the listener.  [Typing] and [SubscribeNewJobs] stand for a payload
    that destructures (neither [null] nor [undefined]), [SubscribeNewJobs]
    for one whose [lat] and [lng] are numbers.  An event of which the
    listener returns: the value its literal prints is one that prints. *)
Definition listener_returns (ev : ClientEvent) : bool :=
  match ev with
  | LeaveChat jobId | Typing jobId _ => prints jobId
  | SubscribeNewJobs _ _ radius => prints radius
  | _ => true
  end.

(** ** Properties of a state *)

(** What the handshake binds to a connection. *)
Definition identity (s : Socket) : JSVal * JSVal * JSVal :=
  (userId s, userRole s, userName s).

(** Every member of a room is a connected socket. *)
Definition no_orphans (st : Server) : Prop :=
  ∀ sid room, sid ∈ members st room → is_Some (sockets st !! sid).

(** The room of a user id holds the connections bound to an id that prints
    the same, and no other. *)
Definition user_channels_exact (st : Server) : Prop :=
  ∀ sid uid, sid ∈ members st (user_room uid) ↔
    ∃ s, sockets st !! sid = Some s ∧ ToString (userId s) = ToString uid.

(** Who is in a chat room is connected and was granted access to a job of
    that room. *)
Definition chat_members_granted (sc : Scope) (st : Server) : Prop :=
  ∀ sid jobId, sid ∈ members st (chat_room jobId) →
    ∃ s jobId', sockets st !! sid = Some s ∧
      chat_room jobId' = chat_room jobId ∧ access_granted sc s jobId' = true.

(** No socket has a [currentChatRoom]. *)
Definition typing_room_unset (st : Server) : Prop :=
  ∀ sid s, sockets st !! sid = Some s → currentChatRoom s = JUndefined.

(** ** More scenarios *)

(** A job service that answers: an access check that passes or not, a customer, and
    what it stored. *)
Definition fixture_JobService (grant : bool) : JobServiceT :=
  {| verifyDriverJobAccess := λ _ _, Returned (JBool grant);
     updateDriverLocation := λ _ _ _ _, Returned JUndefined;
     updateJobStatus := λ _ status _, Returned (JObj [("status", status)]);
     getJobCustomerId := λ _, Returned (JInt 1);
     canDriverBid := λ _ _, Returned (JBool grant);
     placeBid := λ draft, Returned (JObj [("id", JInt 200); ("bid", draft)]) |}.

(** The module as written, next to that job service. *)
Definition fixture_jobs_scope (grant : bool) : Scope :=
  as_written fixture_verify (fixture_JobService grant).

(** A chat service that grants access and saves, knows Bob as the other
    participant of every job, and has a history to load or not. *)
Definition fixture_ChatService_peers (history_up : bool) : ChatServiceT :=
  {| verifyChatAccess := λ _ _ _, Returned (JBool true);
     getRecentMessages := λ _,
       if history_up then Returned (JStr "history")
       else Thrown "SequelizeConnectionError";
     saveMessage := λ draft, Returned (JObj [("id", JInt 100); ("saved", draft)]);
     getOtherParticipants := λ _ _, Returned [JObj [("userId", JInt 2)]] |}.

Definition fixture_peers_scope (history_up : bool) : Scope :=
  {| jwt_verify := fixture_verify;
     ChatService := Some (fixture_ChatService_peers history_up);
     JobService := missing_JobService;
     NotificationService := None |}.

Definition root : Socket :=
  {| userId := JInt 3; userRole := JStr "admin"; userName := JStr "Root";
     currentChatRoom := JUndefined; locationPreference := None |}.

(** A location update, a status update and a bid for job 5. *)
Definition location5 : list (string * JSVal) :=
  [("jobId", JInt 5); ("lat", JInt 40); ("lng", JInt (-74))].

Definition status5 : list (string * JSVal) :=
  [("jobId", JInt 5); ("status", JStr "picked_up"); ("eta", JInt 15);
   ("notes", JStr "on my way")].

Definition bid5 : list (string * JSVal) :=
  [("jobId", JInt 5); ("amount", JInt 80); ("eta", JStr "2026-01-01");
   ("notes", JStr "van")].

(** ** The job service of the repository *)

(** [./jobService] as the repository has it (src/unnamed/part_003): the
    module exports [createJob], [getAvailableJobs], [submitBid] and
    [updateJobStatus].  Of the six methods the socket handlers call, only
    [updateJobStatus] is there, and it takes the job and the status; a call
    of any of the other five is a call of [undefined], a TypeError.
    [update] stands for the UPDATE it sends to the database. *)
Definition repo_JobService (update : JSVal → JSVal → Outcome JSVal) : JobServiceT :=
  {| verifyDriverJobAccess := λ _ _,
       Thrown "TypeError: JobService.verifyDriverJobAccess is not a function";
     updateDriverLocation := λ _ _ _ _,
       Thrown "TypeError: JobService.updateDriverLocation is not a function";
     updateJobStatus := λ jobId status _, update jobId status;
     getJobCustomerId := λ _,
       Thrown "TypeError: JobService.getJobCustomerId is not a function";
     canDriverBid := λ _ _,
       Thrown "TypeError: JobService.canDriverBid is not a function";
     placeBid := λ _,
       Thrown "TypeError: JobService.placeBid is not a function" |}.

(** The error a driver event ends in when its handler fails. *)
Definition driver_failure (ev : ClientEvent) : option string :=
  match ev with
  | UpdateLocation _ => Some "Failed to update location"
  | JobStatusUpdate _ => Some "Failed to update job status"
  | PlaceBid _ => Some "Failed to place bid"
  | _ => None
  end.

(** An UPDATE that succeeds, and the module as written next to the job
    service of the repository. *)
Definition fixture_update (jobId status : JSVal) : Outcome JSVal :=
  Returned (JObj [("id", jobId); ("status", status)]).

Definition fixture_repo_scope : Scope :=
  as_written fixture_verify (repo_JobService fixture_update).

(** * The REST side: accounts, tokens and guards *)

(** [res.status(code).json(content)]; a plain [res.json] has the status
    200. *)
Record Response : Type := Json { code : Z; content : JSVal }.

Definition error_body (text : string) : JSVal := JObj [("error", JStr text)].

(** What an Express middleware does with a request: it calls [next()],
    the request now carrying [req.user], or it answers. *)
Inductive Handled : Type :=
  | Passed (user : JSVal)
  | Ended (r : Response).

(** Sequencing of awaited calls inside a [try]. *)
Definition and_then {A B} (o : Outcome A) (k : A → Outcome B) : Outcome B :=
  match o with
  | Returned a => k a
  | Thrown e => Thrown e
  end.

Notation "'await' x := o 'in' k" := (and_then o (λ x, k))
  (at level 10, x name, o at level 100, k at level 200).

(** [xs.includes(v)] for an array of strings. *)
Definition includes (xs : list string) (v : JSVal) : bool :=
  match v with
  | JStr s => bool_decide (s ∈ xs)
  | _ => false
  end.

(** [rows[0]] *)
Definition first_row (rows : list JSVal) : JSVal := default JUndefined (head rows).

(** ** The auth routes (src/unnamed/part_001) *)

(** What the two routes call: the two queries on [users] (each gives
    [result.rows]), [bcrypt.hash], [bcrypt.compare], and [jwt.sign] with
    [process.env.JWT_SECRET] and an [expiresIn]. *)
Record AuthDeps : Type := {
  select_by_email : JSVal → Outcome (list JSVal);
  insert_user : JSVal → JSVal → JSVal → JSVal → JSVal → Outcome (list JSVal);
  bcrypt_hash : JSVal → Z → Outcome JSVal;
  bcrypt_compare : JSVal → JSVal → Outcome JSVal;
  jwt_sign : JSVal → string → Outcome JSVal
}.

(** The role [register] stores (lines 11-12). *)
Definition roleToInsert (role : JSVal) : JSVal :=
  if includes ["customer"; "driver"; "admin"] role then role
  else JStr "customer".

(** [POST /register] (lines 9-40), on the fields of [req.body]. *)
Definition register (d : AuthDeps) (body : list (string * JSVal)) : Response :=
  let name := assoc "name" body in
  let email := assoc "email" body in
  let password := assoc "password" body in
  let role := assoc "role" body in
  match
    await existing := select_by_email d email in
    if (0 <? length existing)%nat then
      Returned (Json 409 (error_body "Email already registered"))
    else
      await hashedPassword := bcrypt_hash d password 10 in
      await rows := insert_user d name email hashedPassword
                      (roleToInsert role) (JStr "active") in
      let user := first_row rows in
      await id := get_prop user "id" in
      await email' := get_prop user "email" in
      await role' := get_prop user "role" in
      await token := jwt_sign d (JObj [("id", id); ("email", email');
                                       ("role", role')]) "1h" in
      Returned (Json 201 (JObj [("user", user); ("token", token)]))
  with
  | Returned r => r
  | Thrown _ => Json 500 (error_body "Internal server error")
  end.

(** [POST /login] (lines 43-88), on the fields of [req.body]. *)
Definition login (d : AuthDeps) (body : list (string * JSVal)) : Response :=
  let email := assoc "email" body in
  let password := assoc "password" body in
  match
    await rows := select_by_email d email in
    let user := first_row rows in
    if negb (truthy user) then
      Returned (Json 401 (error_body "Invalid email or password"))
    else
      await stored := get_prop user "password" in
      await isMatch := bcrypt_compare d password stored in
      if negb (truthy isMatch) then
        Returned (Json 401 (error_body "Invalid email or password"))
      else
        await id := get_prop user "id" in
        await email' := get_prop user "email" in
        await role := get_prop user "role" in
        await token := jwt_sign d (JObj [("id", id); ("email", email');
                                         ("role", role)]) "1h" in
        await refreshToken := jwt_sign d (JObj [("id", id)]) "7d" in
        await name := get_prop user "name" in
        Returned (Json 200
                    (JObj [("user", JObj [("id", id); ("email", email');
                                          ("name", name); ("role", role)]);
                           ("token", token);
                           ("refreshToken", refreshToken)]))
  with
  | Returned r => r
  | Thrown _ => Json 500 (error_body "Internal server error")
  end.

(** ** The guards (src/src/middleware/authenticateJWT.js) *)

(** [s.split(sep)] for a separator of one character. *)
Fixpoint split (sep : ascii) (s : string) : list string :=
  match s with
  | EmptyString => [EmptyString]
  | String a s' =>
      if Ascii.eqb a sep then EmptyString :: split sep s'
      else match split sep s' with
           | w :: ws => String a w :: ws
           | [] => [String a EmptyString]
           end
  end.

(** [s.startsWith(p)] *)
Fixpoint startsWith (s p : string) {struct p} : bool :=
  match p with
  | EmptyString => true
  | String a p' =>
      match s with
      | EmptyString => false
      | String b s' => Ascii.eqb a b && startsWith s' p'
      end
  end.

(** [authenticateJWT] (lines 3-21).  [authorization] is
    [req.headers.authorization], a string or nothing; [verify token] stands
    for [jwt.verify(token, process.env.JWT_SECRET, callback)], an exception
    standing for the [err] the callback gets. *)
Definition authenticateJWT (verify : JSVal → Outcome JSVal)
    (authorization : option string) : Handled :=
  match authorization with
  | None => Ended (Json 401 (error_body "Authorization header missing or malformed"))
  | Some authHeader =>
      if String.eqb authHeader "" || negb (startsWith authHeader "Bearer ")
      then Ended (Json 401 (error_body "Authorization header missing or malformed"))
      else
        let token := match split " " authHeader !! 1%nat with
                     | Some t => JStr t
                     | None => JUndefined
                     end in
        match verify token with
        | Thrown _ => Ended (Json 403 (error_body "Invalid or expired token"))
        | Returned user => Passed user
        end
  end.

(** [hasRole(allowedRoles)] (lines 22-30), on [req.user]. *)
Definition hasRole (allowedRoles : list string) (user : JSVal) : Handled :=
  if negb (truthy user)
     || negb (includes allowedRoles
                match get_prop user "role" with
                | Returned role => role
                | Thrown _ => JUndefined
                end)
  then Ended (Json 403 (error_body "Access denied"))
  else Passed user.

(** A string without a space. *)
Fixpoint space_free (s : string) : bool :=
  match s with
  | EmptyString => true
  | String a s' => negb (Ascii.eqb a " "%char) && space_free s'
  end.

(** What [authenticateJWT] does once it has its token. *)
Definition verified (o : Outcome JSVal) : Handled :=
  match o with
  | Thrown _ => Ended (Json 403 (error_body "Invalid or expired token"))
  | Returned user => Passed user
  end.

(** Dependencies for the scenarios: one account, a hash that tags, a
    token that wraps its payload. *)
Definition fixture_row : JSVal :=
  JObj [("id", JInt 7); ("name", JStr "Eve"); ("email", JStr "eve@example.org");
        ("password", JStr "hash:secret"); ("role", JStr "customer")].

Definition fixture_AuthDeps : AuthDeps :=
  {| select_by_email := λ email,
       match email with
       | JStr e => if String.eqb e "eve@example.org" then Returned [fixture_row]
                   else Returned []
       | _ => Returned []
       end;
     insert_user := λ name email hashed role _,
       Returned [JObj [("id", JInt 8); ("name", name); ("email", email);
                       ("role", role)]];
     bcrypt_hash := λ password _, Returned (JStr ("hash:" +:+ ToString password));
     bcrypt_compare := λ password stored,
       Returned (JBool (String.eqb ("hash:" +:+ ToString password)
                          (ToString stored)));
     jwt_sign := λ payload expiresIn,
       Returned (JObj [("signed", payload); ("expiresIn", JStr expiresIn)]) |}.

Definition eve_login : list (string * JSVal) :=
  [("email", JStr "eve@example.org"); ("password", JStr "secret")].

Definition mallory_register : list (string * JSVal) :=
  [("name", JStr "Mallory"); ("email", JStr "mallory@example.org");
   ("password", JStr "pw"); ("role", JStr "super_admin")].

(** * Proofs *)

(** ** The adapter *)

Section adapter.
Implicit Types (st : Server) (sid c : nat) (room r : string).

Lemma members_adapter_add sid room st r :
  members (adapter_add sid room st) r =
  if decide (room = r) then {[sid]} ∪ members st r else members st r.
Proof.
  unfold members, adapter_add; simpl.
  case_decide as E.
  - subst. by rewrite lookup_insert_eq.
  - by rewrite lookup_insert_ne.
Qed.

Lemma members_adapter_del sid room st r :
  members (adapter_del sid room st) r =
  if decide (room = r) then members st r ∖ {[sid]} else members st r.
Proof.
  unfold members, adapter_del; simpl.
  destruct (rooms st !! room) as [ms|] eqn:E.
  - destruct (decide (ms ∖ {[sid]} = ∅)) as [E0|E0];
      destruct (decide (room = r)) as [->|Hne].
    + rewrite lookup_delete_eq, E; simpl. by rewrite E0.
    + by rewrite lookup_delete_ne.
    + rewrite lookup_insert_eq, E. done.
    + by rewrite lookup_insert_ne.
  - destruct (decide (room = r)) as [->|Hne]; [rewrite E|]; simpl;
      by rewrite ?empty_difference_L.
Qed.

Lemma members_adapter_delAll sid st r :
  members (adapter_delAll sid st) r = members st r ∖ {[sid]}.
Proof.
  unfold members, adapter_delAll; simpl.
  rewrite map_lookup_filter, lookup_fmap.
  destruct (rooms st !! r) as [ms|]; simpl; [|by rewrite empty_difference_L].
  case_guard as E; simpl; [done|]. by rewrite E.
Qed.

Lemma left_every_room sid st r : sid ∉ members (adapter_delAll sid st) r.
Proof.
  rewrite members_adapter_delAll, elem_of_difference, elem_of_singleton.
  by intros [_ []].
Qed.

Lemma members_set_locationPreference sid p st r :
  members (set_locationPreference sid p st) r = members st r.
Proof. done. Qed.
End adapter.

(** ** Traces *)

Section traces.
Implicit Types (out : list Effect) (c : nat).

Lemma packets_app out1 out2 :
  packets (out1 ++ out2) = (packets out1 ++ packets out2)%list.
Proof.
  induction out1 as [|e out1 IH]; simpl; [done|].
  destruct e; simpl; by rewrite ?IH.
Qed.

(** What a connection receives is decided by the packets alone. *)
Lemma inbox_packets c out : inbox c (packets out) = inbox c out.
Proof.
  induction out as [|e out IH]; simpl; [done|].
  destruct e; simpl; [case_decide|..]; by rewrite ?IH.
Qed.

(** An error sent to one connection is nobody's [event] of another name. *)
Lemma error_only_not_received c sid event payload out :
  event ≠ "error" →
  packets out = [Emit {[sid]} "error" payload] → ¬ receives c event out.
Proof.
  intros Hev Hout [p Hp]. rewrite <-inbox_packets, Hout in Hp. simpl in Hp.
  case_decide; [|by apply not_elem_of_nil in Hp].
  apply list_elem_of_singleton in Hp. congruence.
Qed.
End traces.

(** ** Running a handler body, one statement at a time *)

Section run.
Context {A B : Type}.
Implicit Types (k : A → M B) (st : Server).

Lemma run_ret a k st : bind (ret a) k st = k a st.
Proof. unfold bind, ret; simpl. by destruct (k a st). Qed.

Lemma run_throw e k st : bind (throw e) k st = mkRes st [] (Thrown e).
Proof. done. Qed.

Lemma run_lift_Returned a k st : bind (lift (Returned a)) k st = k a st.
Proof. unfold bind, lift; simpl. by destruct (k a st). Qed.

Lemma run_call_Returned method args a k st :
  bind (call method args (Returned a)) k st
  = after [Call method args] (k a st).
Proof. done. Qed.

Lemma run_call_Thrown method args e k st :
  bind (call method args (Thrown e)) k st
  = mkRes st [Call method args] (Thrown e).
Proof. done. Qed.

Lemma run_modify f (k : unit → M B) st : bind (modify f) k st = k tt (f st).
Proof. unfold bind, modify; simpl. by destruct (k tt (f st)). Qed.

Lemma run_io_to_emit room event payload (k : unit → M B) st :
  bind (io_to_emit room event payload) k st
  = after [Emit (members st room) event payload] (k tt st).
Proof. done. Qed.

Lemma run_try_catch (m : M A) h st r :
  m st = r →
  try_catch m h st =
  match outcome r with
  | Returned _ => r
  | Thrown e => after (trace r) (h e (final r))
  end.
Proof. by intros <-. Qed.
End run.

(** ** Quiet computations *)

Section quiet.
Context {A B : Type}.

Lemma quiet_ret (a : A) : quiet (ret a).
Proof. done. Qed.

Lemma quiet_throw e : quiet (throw (A:=A) e).
Proof. done. Qed.

Lemma quiet_lift (o : Outcome A) : quiet (lift o).
Proof. done. Qed.

Lemma quiet_call method args (o : Outcome A) : quiet (call method args o).
Proof. intros st. unfold call, bind, tell, lift; simpl. by destruct o. Qed.

Lemma quiet_bind (m : M A) (k : A → M B) :
  quiet m → (∀ a, quiet (k a)) → quiet (bind m k).
Proof.
  intros Hm Hk st. destruct (Hm st) as [E1 E2]. unfold bind.
  destruct (outcome (m st)) as [a|e]; simpl; [|done].
  rewrite E1, packets_app, E2. apply (Hk a st).
Qed.
End quiet.

Lemma quiet_forEach {A} (f : A → M unit) l :
  (∀ x, quiet (f x)) → quiet (forEach f l).
Proof.
  intros Hf. induction l as [|x l IH]; simpl; [by intros st|].
  apply quiet_bind; [apply Hf|]. by intros _.
Qed.

Ltac quiet_steps :=
  repeat first [ apply quiet_ret | apply quiet_throw | apply quiet_lift
               | apply quiet_call | apply quiet_bind; [|intros ?] ].

(** The notifications of [send-message] change no state and send no
    packet. *)
Lemma quiet_notify_participant sc s jobId message p :
  quiet (notify_participant sc s jobId message p).
Proof.
  unfold notify_participant, the_NotificationService.
  destruct (NotificationService sc); quiet_steps.
Qed.

Lemma quiet_send_tail sc s jobId message :
  quiet (do cs2 <- the_ChatService sc;
         do otherParticipants <- call "ChatService.getOtherParticipants"
                                   [jobId; userId s]
                                   (getOtherParticipants cs2 jobId (userId s));
         forEach (notify_participant sc s jobId message) otherParticipants).
Proof.
  unfold the_ChatService.
  destruct (ChatService sc);
    repeat first [ apply quiet_forEach; intros ?
                 | apply quiet_notify_participant
                 | apply quiet_ret | apply quiet_throw | apply quiet_call
                 | apply quiet_bind; [|intros ?] ].
Qed.

(** ** Computations that keep an invariant *)

Section preserves.
Context (P : Server → Prop).

Lemma preserves_quiet {A} (m : M A) : quiet m → preserves P m.
Proof. intros Hm st HP. by rewrite (proj1 (Hm st)). Qed.

Lemma preserves_same {A} (m : M A) :
  (∀ st, final (m st) = st) → preserves P m.
Proof. intros Hm st HP. by rewrite Hm. Qed.

Lemma preserves_bind {A B} (m : M A) (k : A → M B) :
  preserves P m → (∀ a, preserves P (k a)) → preserves P (bind m k).
Proof.
  intros Hm Hk st HP. unfold bind. specialize (Hm st HP).
  destruct (outcome (m st)); simpl; [by apply Hk|done].
Qed.

Lemma preserves_try_catch {A} (m : M A) h :
  preserves P m → (∀ e, preserves P (h e)) → preserves P (try_catch m h).
Proof.
  intros Hm Hh st HP. unfold try_catch. specialize (Hm st HP).
  destruct (outcome (m st)); simpl; [done|by apply Hh].
Qed.

Lemma preserves_modify f : (∀ st, P st → P (f st)) → preserves P (modify f).
Proof. intros Hf st HP. by apply Hf. Qed.

Lemma preserves_if {A} (b : bool) (m1 m2 : M A) :
  preserves P m1 → preserves P m2 → preserves P (if b then m1 else m2).
Proof. by destruct b. Qed.

Lemma preserves_forEach {A} (f : A → M unit) l :
  (∀ x, preserves P (f x)) → preserves P (forEach f l).
Proof.
  intros Hf. induction l as [|x l IH]; simpl; [by intros st|].
  apply preserves_bind; [apply Hf|by intros _].
Qed.

Lemma preserves_the_ChatService sc : preserves P (the_ChatService sc).
Proof. unfold the_ChatService. by destruct (ChatService sc); intros st. Qed.

Lemma preserves_the_NotificationService sc :
  preserves P (the_NotificationService sc).
Proof.
  unfold the_NotificationService.
  by destruct (NotificationService sc); intros st.
Qed.
End preserves.

(** Breaks a handler body into its statements; what is left are the
    statements that write the state. *)
Ltac preserves_steps :=
  repeat first
    [ apply preserves_the_ChatService
    | apply preserves_the_NotificationService
    | apply preserves_forEach; intros ?
    | apply preserves_quiet, quiet_notify_participant
    | apply preserves_same; intros ?; reflexivity
    | apply preserves_quiet, quiet_call
    | apply preserves_try_catch; [|intros ?]
    | apply preserves_if
    | apply preserves_bind; [|intros ?]
    | apply preserves_modify ].

(** ** The room of the admin broadcast *)

Lemma admin_empty_add sid room st :
  room ≠ "admin" → admin_empty st → admin_empty (adapter_add sid room st).
Proof.
  unfold admin_empty. intros Hne E.
  by rewrite members_adapter_add, decide_False.
Qed.

Lemma admin_empty_del sid room st :
  admin_empty st → admin_empty (adapter_del sid room st).
Proof.
  unfold admin_empty. intros E. rewrite members_adapter_del, E.
  case_decide; [apply empty_difference_L|done].
Qed.

Lemma admin_empty_delAll sid st :
  admin_empty st → admin_empty (adapter_delAll sid st).
Proof.
  unfold admin_empty. intros E.
  rewrite members_adapter_delAll, E. apply empty_difference_L.
Qed.

(** Every room name the module builds starts with another letter. *)
Ltac admin_empty_add_tac :=
  intros ? ?; apply admin_empty_add;
  [unfold chat_room, user_room, locationKey; simpl; discriminate | assumption].

Lemma handler_admin_empty sc sid s now ev :
  preserves admin_empty (handler sc sid s now ev).
Proof.
  destruct ev; cbn [handler];
    unfold on_join_chat, on_leave_chat, on_send_message, on_typing,
      on_update_location, on_job_status_update, on_place_bid,
      on_subscribe_new_jobs, socket_join, socket_leave;
    preserves_steps;
    first [ apply admin_empty_del | admin_empty_add_tac | done ].
Qed.

Lemma step_admin_empty sc io i st' :
  (∀ st, io = Some st → admin_empty st) →
  (step sc io i).1 = Some st' → admin_empty st'.
Proof.
  intros Hio. destruct i; cbn [step].
  - intros [= <-]. done.
  - destruct io as [st|]; [|done]. specialize (Hio st eq_refl).
    destruct (sockets st !! sid); [by intros [= <-]|].
    cbn [fst]. intros [= <-]. revert st Hio. unfold connect.
    destruct (auth_middleware sc token); [|by intros st].
    unfold on_connection, socket_join. preserves_steps;
      first [ admin_empty_add_tac | done ].
  - destruct io as [st|]; [|done]. specialize (Hio st eq_refl).
    cbn [fst]. intros [= <-]. unfold inbound.
    destruct (sockets st !! sid); [|done]. by apply handler_admin_empty.
  - destruct io as [st|]; [|done]. specialize (Hio st eq_refl).
    cbn [fst]. intros [= <-]. unfold disconnect.
    destruct (sockets st !! sid); [|done].
    revert st Hio. unfold on_disconnect.
    preserves_steps; first [ apply admin_empty_delAll | done ].
  - cbn [fst]. auto.
  - cbn [fst]. auto.
  - cbn [fst]. auto.
  - cbn [fst]. auto.
Qed.

Lemma reachable_admin_empty sc io :
  reachable sc io → ∀ st, io = Some st → admin_empty st.
Proof.
  induction 1 as [|io i _ IH]; [done|].
  intros st' E. by eapply step_admin_empty.
Qed.

Lemma reachable_run sc io inputs :
  reachable sc io → reachable sc (run sc io inputs).1.
Proof.
  revert io. induction inputs as [|i inputs IH]; intros io Hio; [done|].
  cbn [run]. specialize (IH (step sc io i).1 (reachable_step sc io i Hio)).
  destruct (step sc io i) as [io1 out1]. cbn [fst] in IH.
  by destruct (run sc io1 inputs).
Qed.

(** ** Room names *)

Lemma is_digit_pretty_N_char x : is_digit (pretty_N_char x) = true.
Proof. unfold pretty_N_char. by repeat case_match. Qed.

Lemma digits_pretty_N_go x s : digits s = true → digits (pretty_N_go x s) = true.
Proof.
  revert s. induction (N.lt_wf_0 x) as [x _ IH]; intros s Hs.
  destruct (decide (x = 0)%N) as [->|Hx]; [by rewrite pretty_N_go_0|].
  rewrite pretty_N_go_step by lia.
  apply IH; [apply N.div_lt; lia|]. simpl.
  by rewrite is_digit_pretty_N_char.
Qed.

Lemma digits_pretty_N (x : N) : digits (pretty x) = true.
Proof.
  unfold pretty, pretty_N. case_decide; [done|]. by apply digits_pretty_N_go.
Qed.

Lemma numeral_pretty_Z (z : Z) : numeral (pretty z) = true.
Proof.
  destruct z as [|p|p]; [done|..].
  - change (pretty (Z.pos p)) with (pretty (N.pos p)).
    pose proof (digits_pretty_N (N.pos p)) as H.
    destruct (pretty (N.pos p)); [done|]. unfold numeral. rewrite H.
    apply orb_true_r.
  - change (pretty (Z.neg p)) with (String "-" (pretty (N.pos p))).
    simpl. by rewrite (digits_pretty_N (N.pos p)).
Qed.

Lemma digits_colon_free s : digits s = true → colon_free s = true.
Proof.
  induction s as [|a s IH]; [done|]. simpl.
  intros [Ha Hs]%andb_true_iff. rewrite IH by done.
  destruct (Ascii.eqb_spec a ":") as [->|]; done.
Qed.

Lemma numeral_colon_free s : numeral s = true → colon_free s = true.
Proof.
  destruct s as [|a s]; [done|]. unfold numeral.
  intros [[Ha Hs]%andb_true_iff|H]%orb_true_iff.
  - simpl. rewrite (digits_colon_free s Hs).
    apply Ascii.eqb_eq in Ha as ->. done.
  - by apply digits_colon_free.
Qed.

Lemma colon_free_Integral n : colon_free (Integral_ToString n) = true.
Proof.
  destruct n; [done..|]. apply numeral_colon_free, numeral_pretty_Z.
Qed.

Lemma numeral_Integral_ToString z n :
  Integral_ToString (IInt z) = Integral_ToString n → ∃ z', n = IInt z'.
Proof.
  intros E. pose proof (numeral_pretty_Z z) as H.
  destruct n; cbn [Integral_ToString] in E; [rewrite E in H; discriminate H..|].
  by eexists.
Qed.

Lemma Integral_ToString_inj n n' :
  Integral_ToString n = Integral_ToString n' → n = n'.
Proof.
  intros E. destruct n as [| | |z].
  1-3: destruct n' as [| | |z']; try done;
    symmetry in E; apply numeral_Integral_ToString in E as [? [=]].
  destruct (numeral_Integral_ToString _ _ E) as [z' ->].
  cbn [Integral_ToString] in E. f_equal. exact (pretty_Z_inj z z' E).
Qed.

(** Two strings without a colon, each followed by a colon and a rest, are
    read back from the whole. *)
Lemma colon_split a a' t t' :
  colon_free a = true → colon_free a' = true →
  a +:+ String ":" t = a' +:+ String ":" t' → a = a' ∧ t = t'.
Proof.
  revert a'. induction a as [|x a IH]; intros [|x' a'] Ha Ha' E;
    cbn [String.append] in E.
  - by injection E.
  - injection E as <- _. done.
  - injection E as -> _. done.
  - injection E as -> E. simpl in Ha, Ha'.
    apply andb_true_iff in Ha as [_ Ha]. apply andb_true_iff in Ha' as [_ Ha'].
    destruct (IH a' Ha Ha' E) as [-> ->]. done.
Qed.

(** [Math.round] is the rounding of the specification. *)
Lemma Qfloor_unique (x : Q) (k : Z) :
  (inject_Z k <= x)%Q → (x < inject_Z k + 1)%Q → Qfloor x = k.
Proof.
  intros H1 H2.
  pose proof (Qfloor_le x) as H3. pose proof (Qlt_floor x) as H4.
  assert (inject_Z k < inject_Z (Qfloor x + 1))%Q as H5
    by (eapply Qle_lt_trans; eassumption).
  assert (inject_Z (Qfloor x) < inject_Z (k + 1))%Q as H6.
  { rewrite inject_Z_plus. eapply Qle_lt_trans; eassumption. }
  rewrite <-Zlt_Qlt in H5, H6. lia.
Qed.

Lemma nearest_Qfloor (q : Q) (k : Z) :
  Qle_bool (inject_Z k - (1 # 2)) q
  && negb (Qle_bool (inject_Z k + (1 # 2)) q) = true
  ↔ Qfloor (q + (1 # 2)) = k.
Proof.
  rewrite andb_true_iff, negb_true_iff, Qle_bool_iff, <-not_true_iff_false,
    Qle_bool_iff.
  split.
  - intros [H1 H2]. apply Qnot_le_lt in H2. apply Qfloor_unique; lra.
  - intros <-. pose proof (Qfloor_le (q + (1 # 2))) as H3.
    pose proof (Qlt_floor (q + (1 # 2))) as H4.
    rewrite inject_Z_plus in H4.
    change (inject_Z 1) with 1%Q in H4.
    split; [lra|]. apply Qlt_not_le. lra.
Qed.

Lemma rounded_to_Math_round x b :
  rounded_to x b = true ↔ Math_round x = b.
Proof.
  destruct x as [| | |q], b as [| | |k]; cbn [rounded_to Math_round];
    try (split; [done|discriminate]); try done.
  rewrite nearest_Qfloor. split; [intros E; by f_equal|by intros [= E]].
Qed.

Lemma same_rounded_Math_round x y :
  same_rounded x y ↔ Math_round x = Math_round y.
Proof.
  unfold same_rounded. split.
  - intros (b & Hx & Hy). apply rounded_to_Math_round in Hx, Hy. congruence.
  - intros E. exists (Math_round x). by rewrite !rounded_to_Math_round.
Qed.

(** A location key is read back into its two buckets and its radius. *)
Lemma locationKey_inj lat1 lng1 r1 lat2 lng2 r2 :
  locationKey lat1 lng1 r1 = locationKey lat2 lng2 r2 →
  Math_round lat1 = Math_round lat2 ∧ Math_round lng1 = Math_round lng2 ∧
  ToString r1 = ToString r2.
Proof.
  unfold locationKey. intros E.
  apply (inj (String.app "location:")) in E.
  change (":" +:+ ?s) with (String ":" s) in E.
  apply colon_split in E as [E1 E]; [|apply colon_free_Integral..].
  change (":" +:+ ?s) with (String ":" s) in E.
  apply colon_split in E as [E2 E]; [|apply colon_free_Integral..].
  split_and!; [by apply Integral_ToString_inj..|done].
Qed.

(** ** What the handlers do *)

Lemma step_inbound sc st sid s now ev :
  sockets st !! sid = Some s →
  step sc (Some st) (Inbound sid now ev)
  = (Some (final (handler sc sid s now ev st)),
     trace (handler sc sid s now ev st)).
Proof. intros E. unfold step, inbound. by rewrite E. Qed.

(** No handler lets an exception out: the body of each [async] handler is
    inside a [try] whose [catch] only emits. *)
Lemma try_catch_returns (m : M unit) h st :
  (∀ e st', outcome (h e st') = Returned tt) →
  outcome (try_catch m h st) = Returned tt.
Proof.
  intros Hh. unfold try_catch.
  destruct (outcome (m st)) as [[]|e] eqn:E; [done|apply Hh].
Qed.

Lemma handler_returns sc sid s now ev st :
  outcome (handler sc sid s now ev st) = Returned tt.
Proof.
  destruct ev; cbn [handler]; try (by apply try_catch_returns); done.
Qed.

(** [send-message], the access check passed and the message saved: the
    broadcast goes to the room, and at most an error to the sender
    follows. *)
Lemma on_send_message_saved sc sid s now fs st v chatMessage :
  access_check sc s (assoc "jobId" fs) = Returned v → truthy v = true →
  persist sc (message_draft s now (assoc "jobId" fs) (assoc "message" fs)
                (or_default (assoc "type" fs) (JStr "text")))
    = Returned chatMessage →
  final (on_send_message sc sid s now (JObj fs) st) = st ∧
  ∃ tail,
    packets (trace (on_send_message sc sid s now (JObj fs) st)) =
      Emit (members st (chat_room (assoc "jobId" fs))) "new-message" chatMessage
      :: tail ∧
    (tail = [] ∨
     tail = [Emit {[sid]} "error" (error_payload "Failed to send message")]).
Proof.
  intros Hacc Hv Hsave.
  unfold access_check, persist in *.
  pose proof (quiet_send_tail sc s (assoc "jobId" fs) (assoc "message" fs) st)
    as [T1 T2].
  unfold on_send_message.
  destruct (ChatService sc) as [cs|] eqn:Ecs; [|done].
  erewrite run_try_catch; last first.
  { cbn [get_prop]. rewrite !run_lift_Returned.
    unfold the_ChatService at 1 2. rewrite Ecs, run_ret, Hacc, run_call_Returned.
    rewrite Hv. cbn [negb].
    rewrite run_ret, Hsave, run_call_Returned, run_io_to_emit. done. }
  cbn [after final trace outcome app].
  match goal with |- context [outcome ?r] => destruct (outcome r) end;
    cbn [after final trace outcome packets app socket_emit tell];
    rewrite ?T1, ?packets_app, ?T2; eauto.
Qed.

(** [send-message], the access check not passed. *)
Lemma on_send_message_refused sc sid s now fs st :
  access_granted sc s (assoc "jobId" fs) = false →
  final (on_send_message sc sid s now (JObj fs) st) = st ∧
  (∃ message, packets (trace (on_send_message sc sid s now (JObj fs) st))
              = [Emit {[sid]} "error" (error_payload message)] ∧
     ∀ v, access_check sc s (assoc "jobId" fs) = Returned v →
          message = "Access denied") ∧
  "ChatService.saveMessage"
    ∉ calls (trace (on_send_message sc sid s now (JObj fs) st)).
Proof.
  unfold access_granted, access_check, on_send_message. intros Hacc.
  destruct (ChatService sc) as [cs|] eqn:Ecs.
  - destruct (verifyChatAccess cs _ _ _) as [v|e] eqn:Ever.
    + erewrite run_try_catch; last first.
      { cbn [get_prop]. rewrite !run_lift_Returned.
        unfold the_ChatService at 1.
        rewrite Ecs, run_ret, Ever, run_call_Returned.
        rewrite Hacc. cbn [negb]. done. }
      simpl. split_and!; [done|by eexists|].
      apply not_elem_of_cons. split; [done|apply not_elem_of_nil].
    + erewrite run_try_catch; last first.
      { cbn [get_prop]. rewrite !run_lift_Returned.
        unfold the_ChatService at 1.
        rewrite Ecs, run_ret, Ever, run_call_Thrown. done. }
      simpl. split_and!; [done|by eexists|].
      apply not_elem_of_cons. split; [done|apply not_elem_of_nil].
  - erewrite run_try_catch; last first.
    { cbn [get_prop]. rewrite !run_lift_Returned.
      unfold the_ChatService at 1. rewrite Ecs, run_throw. done. }
    simpl. split_and!; [done|by eexists|apply not_elem_of_nil].
Qed.

(** [send-message], the access check passed and the save thrown. *)
Lemma on_send_message_store_failure sc sid s now fs st v e :
  access_check sc s (assoc "jobId" fs) = Returned v → truthy v = true →
  persist sc (message_draft s now (assoc "jobId" fs) (assoc "message" fs)
                (or_default (assoc "type" fs) (JStr "text")))
    = Thrown e →
  on_send_message sc sid s now (JObj fs) st
  = mkRes st
      [Call "ChatService.verifyChatAccess"
         [assoc "jobId" fs; userId s; userRole s];
       Call "ChatService.saveMessage"
         [message_draft s now (assoc "jobId" fs) (assoc "message" fs)
            (or_default (assoc "type" fs) (JStr "text"))];
       Emit {[sid]} "error" (error_payload "Failed to send message")]
      (Returned tt).
Proof.
  unfold access_check, persist, on_send_message. intros Hacc Hv Hsave.
  destruct (ChatService sc) as [cs|] eqn:Ecs; [|done].
  erewrite run_try_catch; last first.
  { cbn [get_prop]. rewrite !run_lift_Returned.
    unfold the_ChatService at 1 2. rewrite Ecs, run_ret, Hacc, run_call_Returned.
    rewrite Hv. cbn [negb]. rewrite run_ret, Hsave, run_call_Thrown. done. }
  done.
Qed.

(** [join-chat], the access check not passed. *)
Lemma on_join_chat_refused sc sid s now jobId st :
  access_granted sc s jobId = false →
  final (on_join_chat sc sid s now jobId st) = st ∧
  ∃ message, packets (trace (on_join_chat sc sid s now jobId st))
             = [Emit {[sid]} "error" (error_payload message)] ∧
     ∀ v, access_check sc s jobId = Returned v →
          message = "Access denied to this chat".
Proof.
  unfold access_granted, access_check, on_join_chat. intros Hacc.
  destruct (ChatService sc) as [cs|] eqn:Ecs.
  - destruct (verifyChatAccess cs _ _ _) as [v|e] eqn:Ever.
    + erewrite run_try_catch; last first.
      { unfold the_ChatService at 1.
        rewrite Ecs, run_ret, Ever, run_call_Returned.
        rewrite Hacc. cbn [negb]. done. }
      simpl. split; [done|by eexists].
    + erewrite run_try_catch; last first.
      { unfold the_ChatService at 1.
        rewrite Ecs, run_ret, Ever, run_call_Thrown. done. }
      simpl. split; [done|by eexists].
  - erewrite run_try_catch; last first.
    { unfold the_ChatService at 1. rewrite Ecs, run_throw. done. }
    simpl. split; [done|by eexists].
Qed.

(** The module as it is written: with [ChatService] unbound, the two chat
    handlers end in their [catch], whatever the payload. *)
Lemma as_written_send_message verify js sid s now data st :
  on_send_message (as_written verify js) sid s now data st
  = mkRes st [Emit {[sid]} "error" (error_payload "Failed to send message")]
      (Returned tt).
Proof. by destruct data. Qed.

Lemma as_written_join_chat verify js sid s now jobId st :
  on_join_chat (as_written verify js) sid s now jobId st
  = mkRes st [Emit {[sid]} "error" (error_payload "Failed to join chat")]
      (Returned tt).
Proof. done. Qed.

Lemma step_subscribe sc st sid s now lat lng r :
  sockets st !! sid = Some s →
  step sc (Some st) (Inbound sid now (SubscribeNewJobs lat lng r))
  = (Some (set_locationPreference sid (lat, lng, or_default r (JInt 25))
             (adapter_add sid (locationKey lat lng (or_default r (JInt 25))) st)),
     []).
Proof.
  intros Hs. rewrite (step_inbound _ _ _ s) by done. cbn [handler].
  unfold on_subscribe_new_jobs, socket_join. by rewrite run_modify.
Qed.

(** A handshake the middleware lets through: the socket exists and is in
    the room of its user id, and in no other new room. *)
Lemma handshake_joins_user_channel sc st sid token s :
  sockets st !! sid = None →
  auth_middleware sc token = NextOk s →
  ∃ st', step sc (Some st) (Connect sid token) = (Some st', []) ∧
    sockets st' !! sid = Some s ∧
    sid ∈ members st' (user_room (userId s)) ∧
    ∀ room, room ≠ user_room (userId s) → members st' room = members st room.
Proof.
  intros Hsid Hauth. eexists. split.
  { unfold step. rewrite Hsid. unfold connect. rewrite Hauth.
    unfold on_connection, socket_join. rewrite run_modify. reflexivity. }
  cbn [final modify add_socket adapter_add sockets]. split_and!.
  - apply lookup_insert_eq.
  - rewrite members_adapter_add, decide_True by done.
    apply elem_of_union_l, elem_of_singleton. done.
  - intros room Hroom. by rewrite members_adapter_add, decide_False.
Qed.

(** ** The chat room *)

(** Claim C1, as the module has it.  A [send-message] of connection [A]
    for a job id that prints, whose access check passes and whose message
    the chat service saves, reaches every member of the chat room of its
    job, [A] and [B] among them, and no connection outside the room.
    Membership of the sender is not what the handler tests: it asks the
    chat service again. *)
Theorem C1_send_message_reaches_room sc st A B s now fs v chatMessage :
  sockets st !! A = Some s →
  prints (assoc "jobId" fs) = true →
  A ∈ members st (chat_room (assoc "jobId" fs)) →
  B ∈ members st (chat_room (assoc "jobId" fs)) →
  access_check sc s (assoc "jobId" fs) = Returned v → truthy v = true →
  persist sc (message_draft s now (assoc "jobId" fs) (assoc "message" fs)
                (or_default (assoc "type" fs) (JStr "text")))
    = Returned chatMessage →
  let out := (step sc (Some st) (Inbound A now (SendMessage (JObj fs)))).2 in
  ("new-message", chatMessage) ∈ inbox A out ∧
  ("new-message", chatMessage) ∈ inbox B out ∧
  ∀ c, c ∉ members st (chat_room (assoc "jobId" fs)) →
       ¬ receives c "new-message" out.
Proof.
  intros Hs _ HA HB Hacc Hv Hsave out. subst out.
  rewrite (step_inbound _ _ _ s) by done. cbn [snd handler].
  destruct (on_send_message_saved sc A s now fs st v chatMessage Hacc Hv Hsave)
    as (_ & tail & Hout & Htail).
  assert (∀ c, inbox c (trace (on_send_message sc A s now (JObj fs) st))
               = inbox c (Emit (members st (chat_room (assoc "jobId" fs)))
                            "new-message" chatMessage :: tail)) as Hin.
  { intros c. by rewrite <-inbox_packets, Hout. }
  split_and!.
  - rewrite Hin. simpl. rewrite decide_True by done. apply list_elem_of_here.
  - rewrite Hin. simpl. rewrite decide_True by done. apply list_elem_of_here.
  - intros c Hc [payload Hp]. rewrite Hin in Hp. simpl in Hp.
    rewrite decide_False in Hp by done.
    destruct Htail as [->| ->]; simpl in Hp.
    + by apply not_elem_of_nil in Hp.
    + case_decide; [|by apply not_elem_of_nil in Hp].
      apply list_elem_of_singleton in Hp. discriminate.
Qed.

Lemma C1_send_message_reaches_room_witness :
  let out := (step (fixture_scope true true) (Some two_in_chat)
                (Inbound 1 (JInt 12) (SendMessage (JObj hello5)))).2 in
  let chatMessage :=
    JObj [("id", JInt 100);
          ("saved", message_draft ann (JInt 12) (assoc "jobId" hello5)
                      (assoc "message" hello5)
                      (or_default (assoc "type" hello5) (JStr "text")))] in
  ("new-message", chatMessage) ∈ inbox 1 out ∧
  ("new-message", chatMessage) ∈ inbox 2 out ∧
  ∀ c, c ∉ members two_in_chat (chat_room (assoc "jobId" hello5)) →
       ¬ receives c "new-message" out.
Proof.
  apply (C1_send_message_reaches_room (fixture_scope true true) two_in_chat
           1 2 ann (JInt 12) hello5 (JBool true)).
  - vm_compute; reflexivity.
  - reflexivity.
  - vm_compute; reflexivity.
  - vm_compute; reflexivity.
  - reflexivity.
  - reflexivity.
  - reflexivity.
Defined.

(** Ann and Bob are both in the chat room of job 5 when the chat service
    stops granting Ann access (the job went to another customer or
    driver).  Ann's next message gets her an error and reaches nobody. *)
Lemma C1_counterexample :
  ¬ send_reaches_room (fixture_scope false true) two_in_chat 1 2 (JInt 12)
      hello5.
Proof.
  unfold send_reaches_room. intros H.
  destruct H as (_ & [payload HB] & _).
  - by eexists.
  - vm_compute; reflexivity.
  - vm_compute; reflexivity.
  - replace (inbox 2 _) with (@nil (string * JSVal)) in HB
      by (vm_compute; reflexivity).
    by apply not_elem_of_nil in HB.
Qed.

(** The same when access is granted and the store is down. *)
Example send_reaches_room_store_down :
  ¬ send_reaches_room (fixture_scope true false) two_in_chat 1 2 (JInt 12)
      hello5.
Proof.
  unfold send_reaches_room. intros H.
  destruct H as (_ & [payload HB] & _).
  - by eexists.
  - vm_compute; reflexivity.
  - vm_compute; reflexivity.
  - replace (inbox 2 _) with (@nil (string * JSVal)) in HB
      by (vm_compute; reflexivity).
    by apply not_elem_of_nil in HB.
Qed.

(** Claim C2, as the module has it.  A [send-message] whose access check
    does not pass (the chat service answers no, or throws, or is not there)
    is answered by one error to the sender: the state is unchanged, nothing
    is saved, nobody receives a [new-message].  When the chat service
    answered, the error is "Access denied". *)
Theorem C2_send_message_refused sc st A s now fs :
  sockets st !! A = Some s →
  access_granted sc s (assoc "jobId" fs) = false →
  let r := step sc (Some st) (Inbound A now (SendMessage (JObj fs))) in
  r.1 = Some st ∧
  (∃ message, packets r.2 = [Emit {[A]} "error" (error_payload message)] ∧
     ∀ v, access_check sc s (assoc "jobId" fs) = Returned v →
          message = "Access denied") ∧
  ("ChatService.saveMessage" ∉ calls r.2) ∧
  ∀ c, ¬ receives c "new-message" r.2.
Proof.
  intros Hs Hacc r. subst r.
  rewrite (step_inbound _ _ _ s) by done. cbn [fst snd handler].
  destruct (on_send_message_refused sc A s now fs st Hacc)
    as (E1 & (message & E2 & E3) & E4).
  rewrite E1. split_and!; [done|by exists message|done|].
  intros c. by eapply error_only_not_received.
Qed.

Lemma C2_send_message_refused_witness :
  let r := step (fixture_scope false true) (Some bob_in_chat)
             (Inbound 1 (JInt 12) (SendMessage (JObj hello5))) in
  r.1 = Some bob_in_chat ∧
  (∃ message, packets r.2 = [Emit {[1%nat]} "error" (error_payload message)] ∧
     ∀ v, access_check (fixture_scope false true) ann (assoc "jobId" hello5)
          = Returned v → message = "Access denied") ∧
  ("ChatService.saveMessage" ∉ calls r.2) ∧
  ∀ c, ¬ receives c "new-message" r.2.
Proof.
  apply (C2_send_message_refused (fixture_scope false true) bob_in_chat
           1 ann (JInt 12) hello5).
  - vm_compute; reflexivity.
  - reflexivity.
Defined.

(** Ann never joined the chat room of job 5; the chat service grants her
    access to the job.  Her message is saved and broadcast to the room. *)
Lemma C2_counterexample :
  ¬ send_needs_membership (fixture_scope true true) bob_in_chat 1 (JInt 12)
      hello5.
Proof.
  unfold send_needs_membership. intros H.
  destruct H as (_ & _ & Hsave).
  - by eexists.
  - vm_compute. intros E. discriminate E.
  - apply Hsave. vm_compute. apply list_elem_of_further, list_elem_of_here.
Qed.

Example outsider_message_reaches_room :
  (1%nat ∉ members bob_in_chat "chat:5") ∧
  fst <$> inbox 2 (step (fixture_scope true true) (Some bob_in_chat)
                     (Inbound 1 (JInt 12) (SendMessage (JObj hello5)))).2
  = ["new-message"].
Proof. split; [vm_compute; intros E; discriminate E|vm_compute; reflexivity]. Qed.

(** Claim C3.  A [join-chat] whose access check does not pass is answered
    by one error to the requester: the state, and with it every room, is
    unchanged, and nobody receives a [user-joined].  When the chat service
    answered, the error is "Access denied to this chat". *)
Theorem C3_join_chat_refused sc st A s now jobId :
  sockets st !! A = Some s →
  access_granted sc s jobId = false →
  let r := step sc (Some st) (Inbound A now (JoinChat jobId)) in
  r.1 = Some st ∧
  (∃ message, packets r.2 = [Emit {[A]} "error" (error_payload message)] ∧
     ∀ v, access_check sc s jobId = Returned v →
          message = "Access denied to this chat") ∧
  ∀ c, ¬ receives c "user-joined" r.2.
Proof.
  intros Hs Hacc r. subst r.
  rewrite (step_inbound _ _ _ s) by done. cbn [fst snd handler].
  destruct (on_join_chat_refused sc A s now jobId st Hacc)
    as (E1 & message & E2 & E3).
  rewrite E1. split_and!; [done|by exists message|].
  intros c. by eapply error_only_not_received.
Qed.

Lemma C3_join_chat_refused_witness :
  let r := step (fixture_scope false true) (Some bob_in_chat)
             (Inbound 1 (JInt 12) (JoinChat (JInt 5))) in
  r.1 = Some bob_in_chat ∧
  (∃ message, packets r.2 = [Emit {[1%nat]} "error" (error_payload message)] ∧
     ∀ v, access_check (fixture_scope false true) ann (JInt 5) = Returned v →
          message = "Access denied to this chat") ∧
  ∀ c, ¬ receives c "user-joined" r.2.
Proof.
  apply (C3_join_chat_refused (fixture_scope false true) bob_in_chat
           1 ann (JInt 12) (JInt 5)).
  - vm_compute; reflexivity.
  - reflexivity.
Defined.

(** Claim C9.  A [send-message] whose save throws ends in one error to the
    sender; nobody receives a [new-message], the state is as before, and
    the inputs that follow are handled as if the event had not been. *)
Theorem C9_send_message_store_failure sc st A s now fs v e :
  sockets st !! A = Some s →
  access_check sc s (assoc "jobId" fs) = Returned v → truthy v = true →
  persist sc (message_draft s now (assoc "jobId" fs) (assoc "message" fs)
                (or_default (assoc "type" fs) (JStr "text")))
    = Thrown e →
  let i := Inbound A now (SendMessage (JObj fs)) in
  (step sc (Some st) i).1 = Some st ∧
  packets (step sc (Some st) i).2
    = [Emit {[A]} "error" (error_payload "Failed to send message")] ∧
  (∀ c, ¬ receives c "new-message" (step sc (Some st) i).2) ∧
  ∀ later,
    run sc (Some st) (i :: later)
    = ((run sc (Some st) later).1,
       ((step sc (Some st) i).2 ++ (run sc (Some st) later).2)%list).
Proof.
  intros Hs Hacc Hv Hsave i. subst i.
  assert (step sc (Some st) (Inbound A now (SendMessage (JObj fs))) =
    (Some st,
     [Call "ChatService.verifyChatAccess"
        [assoc "jobId" fs; userId s; userRole s];
      Call "ChatService.saveMessage"
        [message_draft s now (assoc "jobId" fs) (assoc "message" fs)
           (or_default (assoc "type" fs) (JStr "text"))];
      Emit {[A]} "error" (error_payload "Failed to send message")])) as E.
  { rewrite (step_inbound _ _ _ s) by done. cbn [handler].
    by rewrite (on_send_message_store_failure sc A s now fs st v e). }
  split_and!.
  - by rewrite E.
  - by rewrite E.
  - intros c. eapply error_only_not_received; [done|]. by rewrite E.
  - intros later. cbn [run]. rewrite E. cbn [fst snd].
    by destruct (run sc (Some st) later).
Qed.

Lemma C9_send_message_store_failure_witness :
  let i := Inbound 1 (JInt 12) (SendMessage (JObj hello5)) in
  let sc := fixture_scope true false in
  (step sc (Some two_in_chat) i).1 = Some two_in_chat ∧
  packets (step sc (Some two_in_chat) i).2
    = [Emit {[1%nat]} "error" (error_payload "Failed to send message")] ∧
  (∀ c, ¬ receives c "new-message" (step sc (Some two_in_chat) i).2) ∧
  ∀ later,
    run sc (Some two_in_chat) (i :: later)
    = ((run sc (Some two_in_chat) later).1,
       ((step sc (Some two_in_chat) i).2
        ++ (run sc (Some two_in_chat) later).2)%list).
Proof.
  apply (C9_send_message_store_failure (fixture_scope true false) two_in_chat
           1 ann (JInt 12) hello5 (JBool true) "SequelizeConnectionError").
  - vm_compute; reflexivity.
  - reflexivity.
  - reflexivity.
  - reflexivity.
Defined.

(** ** The handshake *)

(** Claim C4.  A handshake whose token is missing, or is refused by the
    verifier, ends in a connect error: no socket is made and the state,
    and with it every room, is unchanged; whatever the refused connection
    sends afterwards reaches no handler and no collaborator. *)
Theorem C4_handshake_rejected sc st sid token :
  sockets st !! sid = None →
  truthy token = false ∨ (∃ e, jwt_verify sc token = Thrown e) →
  ∃ message,
    step sc (Some st) (Connect sid token)
    = (Some st, [ConnectError sid message]) ∧
    ∀ evs : list (JSVal * ClientEvent),
      run sc (Some st)
        (Connect sid token :: map (λ ne, Inbound sid ne.1 ne.2) evs)
      = (Some st, [ConnectError sid message]).
Proof.
  intros Hsid Hbad.
  assert (∃ message, auth_middleware sc token = NextErr message)
    as [message Hauth].
  { unfold auth_middleware. destruct Hbad as [->|[e ->]]; simpl; [by eexists|].
    destruct (truthy token); by eexists. }
  assert (step sc (Some st) (Connect sid token)
          = (Some st, [ConnectError sid message])) as Hstep.
  { unfold step. rewrite Hsid. unfold connect. by rewrite Hauth. }
  exists message. split; [done|].
  intros evs. cbn [run]. rewrite Hstep.
  assert (run sc (Some st) (map (λ ne, Inbound sid ne.1 ne.2) evs)
          = (Some st, [])) as ->; [|done].
  induction evs as [|[now ev] evs IH]; [done|].
  cbn [map run fst snd step]. unfold inbound. rewrite Hsid. cbn.
  by rewrite IH.
Qed.

Lemma C4_handshake_rejected_witness :
  ∃ message,
    step fixture_as_written (Some two_in_chat) (Connect 9 (JStr "forged"))
    = (Some two_in_chat, [ConnectError 9 message]) ∧
    ∀ evs : list (JSVal * ClientEvent),
      run fixture_as_written (Some two_in_chat)
        (Connect 9 (JStr "forged") :: map (λ ne, Inbound 9 ne.1 ne.2) evs)
      = (Some two_in_chat, [ConnectError 9 message]).
Proof.
  apply (C4_handshake_rejected fixture_as_written two_in_chat 9
           (JStr "forged")).
  - vm_compute; reflexivity.
  - right. eexists. reflexivity.
Defined.

Example missing_token_message :
  auth_middleware fixture_as_written JUndefined
  = NextErr "Authentication error: No token provided" ∧
  auth_middleware fixture_as_written (JStr "forged")
  = NextErr "Authentication error: Invalid token".
Proof. done. Qed.



(** Claim C8.  No handler and no handshake puts a connection into the room
    ["admin"], so in every state the module can reach an admin broadcast is
    received by nobody, admins included. *)
Theorem C8_admin_broadcast_reaches_nobody sc io event data c :
  reachable sc io → inbox c (broadcastToAdmins io event data) = [].
Proof.
  intros Hio. destruct io as [st|]; [|done]. simpl.
  rewrite (reachable_admin_empty sc (Some st) Hio st eq_refl).
  by rewrite decide_False by apply not_elem_of_empty.
Qed.

Lemma C8_admin_broadcast_reaches_nobody_witness :
  inbox 3 (broadcastToAdmins (run fixture_as_written None three_connected).1
             "dispute-opened" (JStr "job 5")) = [].
Proof.
  apply (C8_admin_broadcast_reaches_nobody fixture_as_written
           (run fixture_as_written None three_connected).1
           "dispute-opened" (JStr "job 5") 3).
  apply reachable_run, reachable_start.
Defined.

(** Root, an admin, after the handshake: in the room of its user id, and
    the admin room is empty. *)
Example connected_admin_in_user_channel_only :
  let st := server_after fixture_as_written three_connected in
  userRole <$> sockets st !! 3%nat = Some (JStr "admin") ∧
  3%nat ∈ members st "user:3" ∧ members st "admin" = ∅.
Proof. vm_compute. auto. Qed.

(** ** Disconnect *)

(** Claim C5, as the module has it.  A disconnect sends no [user-left] to
    anyone; afterwards the socket is gone and the connection is a member of
    no room. *)
Theorem C5_disconnect_sends_no_user_left sc st sid s now :
  sockets st !! sid = Some s →
  ∃ st', (step sc (Some st) (Disconnect sid now)).1 = Some st' ∧
    (∀ c, ¬ receives c "user-left" (step sc (Some st) (Disconnect sid now)).2) ∧
    sockets st' !! sid = None ∧
    ∀ room, sid ∉ members st' room.
Proof.
  intros Hs. unfold step, disconnect. rewrite Hs.
  rewrite !run_modify. unfold on_disconnect.
  eexists. split; [reflexivity|]. cbn [fst snd].
  destruct (truthy (currentChatRoom s)); cbn.
  - split_and!.
    + intros c [payload Hp]. simpl in Hp.
      case_decide; [|by apply not_elem_of_nil in Hp].
      apply list_elem_of_singleton in Hp. discriminate.
    + apply lookup_delete_eq.
    + intros room. apply (left_every_room sid st room).
  - split_and!.
    + intros c [payload Hp]. by apply not_elem_of_nil in Hp.
    + apply lookup_delete_eq.
    + intros room. apply (left_every_room sid st room).
Qed.

Lemma C5_disconnect_sends_no_user_left_witness :
  ∃ st', (step fixture_as_written (Some two_in_chat)
            (Disconnect 1 (JInt 12))).1 = Some st' ∧
    (∀ c, ¬ receives c "user-left"
            (step fixture_as_written (Some two_in_chat)
               (Disconnect 1 (JInt 12))).2) ∧
    sockets st' !! 1%nat = None ∧
    ∀ room, 1%nat ∉ members st' room.
Proof.
  apply (C5_disconnect_sends_no_user_left fixture_as_written two_in_chat 1
           ann (JInt 12)).
  vm_compute; reflexivity.
Defined.

(** Ann and Bob are in the chat room of job 5 and Ann's connection closes:
    Bob receives nothing. *)
Lemma C5_counterexample :
  ¬ disconnect_notifies_rooms (fixture_scope true true) two_in_chat 1
      (JInt 12).
Proof.
  unfold disconnect_notifies_rooms. intros H.
  destruct (H (ltac:(by eexists)) (JInt 5) 2%nat) as [payload Hp].
  - vm_compute; reflexivity.
  - vm_compute; reflexivity.
  - done.
  - replace (inbox 2 _) with (@nil (string * JSVal)) in Hp
      by (vm_compute; reflexivity).
    by apply not_elem_of_nil in Hp.
Qed.

Example disconnect_is_silent :
  (step (fixture_scope true true) (Some two_in_chat) (Disconnect 1 (JInt 12))).2
  = [].
Proof. vm_compute; reflexivity. Qed.

(** ** Location groups *)

(** Claim C6.  [A] and [B] subscribe with numbers as coordinates and
    with the same radius, a value that prints.  Each is put into the room
    of its own key and into no other; the key is made of the two buckets
    the rounding of the specification gives and of the radius; the two
    keys are one room exactly when the latitudes have the same bucket and
    the longitudes too; so [B], if it was not there before, ends up in the
    room of [A] exactly then. *)
Theorem C6_subscribers_share_room_iff sc st A B sA sB nowA nowB
    lat1 lng1 lat2 lng2 r :
  sockets st !! A = Some sA → sockets st !! B = Some sB →
  prints r = true →
  let kA := locationKey lat1 lng1 (or_default r (JInt 25)) in
  let kB := locationKey lat2 lng2 (or_default r (JInt 25)) in
  let same_bucket := same_rounded lat1 lat2 ∧ same_rounded lng1 lng2 in
  ∃ st',
    (run sc (Some st)
       [Inbound A nowA (SubscribeNewJobs lat1 lng1 r);
        Inbound B nowB (SubscribeNewJobs lat2 lng2 r)]).1 = Some st' ∧
    (∀ room, members st' room
             = (if decide (kB = room) then {[B]} else ∅)
               ∪ (if decide (kA = room) then {[A]} else ∅)
               ∪ members st room) ∧
    (∀ b1 b2, rounded_to lat1 b1 = true → rounded_to lng1 b2 = true →
       kA = "location:" +:+ Integral_ToString b1 +:+ ":"
            +:+ Integral_ToString b2 +:+ ":"
            +:+ ToString (or_default r (JInt 25))) ∧
    (kA = kB ↔ same_bucket) ∧
    (A ≠ B → B ∉ members st kA → (B ∈ members st' kA ↔ same_bucket)).
Proof.
  intros HA HB _ kA kB same_bucket.
  assert (kA = kB ↔ same_bucket) as Hkey.
  { unfold same_bucket. rewrite !same_rounded_Math_round. split.
    - intros E. by apply locationKey_inj in E as (? & ? & _).
    - intros [E1 E2]. unfold kA, kB, locationKey. by rewrite E1, E2. }
  assert (is_Some (sockets
            (set_locationPreference A (lat1, lng1, or_default r (JInt 25))
               (adapter_add A kA st)) !! B)) as [sB' HB'].
  { cbn [set_locationPreference sockets adapter_add].
    rewrite lookup_alter. case_decide; [subst; rewrite HB|]; by eexists. }
  eexists. split.
  { cbn [run]. rewrite (step_subscribe _ _ _ sA) by done.
    by rewrite (step_subscribe _ _ _ sB'). }
  assert (∀ room,
    members (set_locationPreference B (lat2, lng2, or_default r (JInt 25))
      (adapter_add B kB
        (set_locationPreference A (lat1, lng1, or_default r (JInt 25))
          (adapter_add A kA st)))) room
    = (if decide (kB = room) then {[B]} else ∅)
      ∪ (if decide (kA = room) then {[A]} else ∅) ∪ members st room) as Hm.
  { intros room.
    rewrite members_set_locationPreference, members_adapter_add,
      members_set_locationPreference, members_adapter_add.
    clear. clearbody kA kB. apply set_eq. intros x.
    repeat case_decide; rewrite !elem_of_union, ?elem_of_empty; tauto. }
  split_and!; [done| |done|].
  { intros b1 b2 <-%rounded_to_Math_round <-%rounded_to_Math_round. done. }
  intros Hne HB0. rewrite Hm, <-Hkey. rewrite (decide_True (P:=kA = kA)) by done.
  clear Hm Hkey HB'. clearbody kA kB.
  rewrite !elem_of_union, elem_of_singleton.
  destruct (decide (kB = kA)) as [E|E].
  - rewrite elem_of_singleton. intuition congruence.
  - rewrite elem_of_empty. intuition congruence.
Qed.

Lemma C6_subscribers_share_room_iff_witness :
  let st := server_after fixture_as_written three_connected in
  let kA := locationKey (Fin (4071 # 100)) (Fin (-(7400 # 100)))
              (or_default JUndefined (JInt 25)) in
  let kB := locationKey (Fin (4130 # 100)) (Fin (-(7449 # 100)))
              (or_default JUndefined (JInt 25)) in
  let same_bucket :=
    same_rounded (Fin (4071 # 100)) (Fin (4130 # 100)) ∧
    same_rounded (Fin (-(7400 # 100))) (Fin (-(7449 # 100))) in
  ∃ st',
    (run fixture_as_written (Some st)
       [Inbound 1 (JInt 10)
          (SubscribeNewJobs (Fin (4071 # 100)) (Fin (-(7400 # 100))) JUndefined);
        Inbound 2 (JInt 11)
          (SubscribeNewJobs (Fin (4130 # 100)) (Fin (-(7449 # 100))) JUndefined)]).1
    = Some st' ∧
    (∀ room, members st' room
             = (if decide (kB = room) then {[2%nat]} else ∅)
               ∪ (if decide (kA = room) then {[1%nat]} else ∅)
               ∪ members st room) ∧
    (∀ b1 b2, rounded_to (Fin (4071 # 100)) b1 = true →
       rounded_to (Fin (-(7400 # 100))) b2 = true →
       kA = "location:" +:+ Integral_ToString b1 +:+ ":"
            +:+ Integral_ToString b2 +:+ ":"
            +:+ ToString (or_default JUndefined (JInt 25))) ∧
    (kA = kB ↔ same_bucket) ∧
    (1%nat ≠ 2%nat → 2%nat ∉ members st kA →
     (2%nat ∈ members st' kA ↔ same_bucket)).
Proof.
  apply (C6_subscribers_share_room_iff fixture_as_written
           (server_after fixture_as_written three_connected) 1 2 ann bob).
  - vm_compute; reflexivity.
  - vm_compute; reflexivity.
  - reflexivity.
Defined.

(** 40.71 and 41.30 round to 41, 40.49 rounds to 40; -74.00 and -74.49
    round to -74. *)
Example same_bucket_same_key :
  locationKey (Fin (4071 # 100)) (Fin (-(7400 # 100))) (JInt 25)
  = "location:41:-74:25" ∧
  locationKey (Fin (4130 # 100)) (Fin (-(7449 # 100))) (JInt 25)
  = "location:41:-74:25" ∧
  locationKey (Fin (4049 # 100)) (Fin (-(7400 # 100))) (JInt 25)
  = "location:40:-74:25".
Proof. vm_compute. auto. Qed.

(** Claim C7, as the module has it.  [emitToLocation] reaches the members
    of one room, the one whose key has the bucket of the job and the very
    radius the caller passes, and nobody else.  A group of the same bucket
    stored under a radius that prints differently is another room. *)
Theorem C7_dispatch_reaches_one_group io lat lng radius event data c :
  inbox c (emitToLocation io lat lng radius event data)
  = match io with
    | Some st =>
        if decide (c ∈ members st (locationKey lat lng radius))
        then [(event, data)] else []
    | None => []
    end ∧
  ∀ stored, ToString stored ≠ ToString radius →
    locationKey lat lng stored ≠ locationKey lat lng radius.
Proof.
  split.
  - destruct io as [st|]; [|done]. simpl. by case_decide.
  - intros stored Hne E. by apply locationKey_inj in E as (_ & _ & E).
Qed.

(** Ann and Bob subscribed at (40, -74), Ann with radius 25 and Bob with
    radius 50.  A job at the centre of that bucket is dispatched with
    radius 25: Bob, whose radius covers the distance 0, receives nothing. *)
Lemma C7_counterexample :
  ¬ dispatch_reaches_covering_groups two_radii 40 (-74) (JInt 25)
      "new-job" (JStr "job 5").
Proof.
  unfold dispatch_reaches_covering_groups. intros H.
  specialize (H (λ _ _, 0%Q) (λ _, Qeq_refl 0) 50 2%nat).
  replace (inbox 2 _) with (@nil (string * JSVal)) in H
    by (vm_compute; reflexivity).
  eapply not_elem_of_nil, H.
  - vm_compute. discriminate.
  - vm_compute; reflexivity.
Qed.

Example dispatch_with_radius_25 :
  inbox 1 (emitToLocation (Some two_radii) (Fin 40) (Fin (-74)) (JInt 25)
             "new-job" (JStr "job 5")) = [("new-job", JStr "job 5")] ∧
  inbox 2 (emitToLocation (Some two_radii) (Fin 40) (Fin (-74)) (JInt 25)
             "new-job" (JStr "job 5")) = [].
Proof. vm_compute. auto. Qed.

(** ** The module as it is written *)

(** With [ChatService] unbound no [join-chat] gets as far as its
    [socket.join], so the chat rooms stay empty. *)
Lemma chat_rooms_empty_add sid room st :
  (∀ jobId, room ≠ chat_room jobId) →
  chat_rooms_empty st → chat_rooms_empty (adapter_add sid room st).
Proof.
  unfold chat_rooms_empty. intros Hne E jobId.
  rewrite members_adapter_add, decide_False; [done|apply Hne].
Qed.

Lemma chat_rooms_empty_del sid room st :
  chat_rooms_empty st → chat_rooms_empty (adapter_del sid room st).
Proof.
  unfold chat_rooms_empty. intros E jobId. rewrite members_adapter_del, E.
  case_decide; [apply empty_difference_L|done].
Qed.

Lemma chat_rooms_empty_delAll sid st :
  chat_rooms_empty st → chat_rooms_empty (adapter_delAll sid st).
Proof.
  unfold chat_rooms_empty. intros E jobId.
  rewrite members_adapter_delAll, E. apply empty_difference_L.
Qed.

Ltac chat_rooms_empty_add_tac :=
  intros ? ?; apply chat_rooms_empty_add;
  [intros ?; unfold chat_room, user_room, locationKey; simpl; discriminate
  | assumption].

Lemma as_written_handler_chat_rooms_empty verify js sid s now ev :
  preserves chat_rooms_empty (handler (as_written verify js) sid s now ev).
Proof.
  destruct ev; cbn [handler].
  - apply preserves_same. intros st. by rewrite as_written_join_chat.
  - unfold on_leave_chat, socket_leave. preserves_steps.
    apply chat_rooms_empty_del.
  - apply preserves_same. intros st. by rewrite as_written_send_message.
  - unfold on_typing. preserves_steps.
  - unfold on_update_location. preserves_steps.
  - unfold on_job_status_update. preserves_steps.
  - unfold on_place_bid. preserves_steps.
  - unfold on_subscribe_new_jobs, socket_join. preserves_steps;
      first [ chat_rooms_empty_add_tac | done ].
Qed.

Lemma as_written_step_chat_rooms_empty verify js io i st' :
  (∀ st, io = Some st → chat_rooms_empty st) →
  (step (as_written verify js) io i).1 = Some st' → chat_rooms_empty st'.
Proof.
  intros Hio. destruct i; cbn [step].
  - intros [= <-]. done.
  - destruct io as [st|]; [|done]. specialize (Hio st eq_refl).
    destruct (sockets st !! sid); [by intros [= <-]|].
    cbn [fst]. intros [= <-]. revert st Hio. unfold connect.
    destruct (auth_middleware _ token); [|by intros st].
    unfold on_connection, socket_join. preserves_steps;
      first [ chat_rooms_empty_add_tac | done ].
  - destruct io as [st|]; [|done]. specialize (Hio st eq_refl).
    cbn [fst]. intros [= <-]. unfold inbound.
    destruct (sockets st !! sid); [|done].
    by apply as_written_handler_chat_rooms_empty.
  - destruct io as [st|]; [|done]. specialize (Hio st eq_refl).
    cbn [fst]. intros [= <-]. unfold disconnect.
    destruct (sockets st !! sid); [|done].
    revert st Hio. unfold on_disconnect.
    preserves_steps; first [ apply chat_rooms_empty_delAll | done ].
  - cbn [fst]. auto.
  - cbn [fst]. auto.
  - cbn [fst]. auto.
  - cbn [fst]. auto.
Qed.

Lemma as_written_chat_rooms_empty verify js io :
  reachable (as_written verify js) io →
  ∀ st, io = Some st → chat_rooms_empty st.
Proof.
  induction 1 as [|io i _ IH]; [done|].
  intros st' E. by eapply as_written_step_chat_rooms_empty.
Qed.

(** * More of the socket service *)

(** ** Where packets go *)

Section sends.
Context (I : Server → Prop) (Q : Effect → Prop).
Context (Qcall : ∀ method args, Q (Call method args)).

Lemma sends_ret {A} (a : A) : sends I Q (ret a).
Proof. by intros st HI. Qed.

Lemma sends_throw {A} e : sends I Q (throw (A:=A) e).
Proof. by intros st HI. Qed.

Lemma sends_lift {A} (o : Outcome A) : sends I Q (lift o).
Proof. by intros st HI. Qed.

Lemma sends_bind {A B} (m : M A) (k : A → M B) :
  sends I Q m → (∀ a, sends I Q (k a)) → sends I Q (bind m k).
Proof.
  intros Hm Hk st HI. destruct (Hm st HI) as [H1 H2]. unfold bind.
  destruct (outcome (m st)) as [a|e]; simpl; [|done].
  destruct (Hk a _ H1) as [H3 H4]. split; [done|by apply Forall_app].
Qed.

(** The continuation only has to do for the value the statement yields. *)
Lemma sends_bind_lift {A B} (o : Outcome A) (k : A → M B) :
  (∀ a, o = Returned a → sends I Q (k a)) → sends I Q (bind (lift o) k).
Proof.
  intros Hk st HI. unfold bind, lift; simpl.
  destruct o as [a|e]; simpl; [|done]. by apply Hk.
Qed.

Lemma sends_call {A} method args (o : Outcome A) :
  sends I Q (call method args o).
Proof.
  intros st HI. unfold call, bind, tell, lift; simpl.
  destruct o; simpl; (split; [done|by repeat constructor]).
Qed.

Lemma sends_try_catch {A} (m : M A) h :
  sends I Q m → (∀ e, sends I Q (h e)) → sends I Q (try_catch m h).
Proof.
  intros Hm Hh st HI. destruct (Hm st HI) as [H1 H2]. unfold try_catch.
  destruct (outcome (m st)) as [a|e]; simpl; [done|].
  destruct (Hh e _ H1) as [H3 H4]. split; [done|by apply Forall_app].
Qed.

Lemma sends_if {A} (b : bool) (m1 m2 : M A) :
  sends I Q m1 → sends I Q m2 → sends I Q (if b then m1 else m2).
Proof. by destruct b. Qed.

Lemma sends_modify f : (∀ st, I st → I (f st)) → sends I Q (modify f).
Proof. intros Hf st HI. split; [by apply Hf|done]. Qed.

Lemma sends_forEach {A} (f : A → M unit) l :
  (∀ x, sends I Q (f x)) → sends I Q (forEach f l).
Proof.
  intros Hf. induction l as [|x l IH]; simpl; [by intros st|].
  apply sends_bind; [apply Hf|by intros _].
Qed.

Lemma sends_the_ChatService sc : sends I Q (the_ChatService sc).
Proof. unfold the_ChatService. by destruct (ChatService sc); intros st. Qed.

Lemma sends_the_NotificationService sc :
  sends I Q (the_NotificationService sc).
Proof.
  unfold the_NotificationService.
  by destruct (NotificationService sc); intros st.
Qed.

Lemma sends_notify_participant sc s jobId message p :
  sends I Q (notify_participant sc s jobId message p).
Proof.
  unfold notify_participant.
  repeat first [ apply sends_the_NotificationService | apply sends_lift
               | apply sends_call | apply sends_bind; [|intros ?] ].
Qed.

Lemma sends_socket_emit sid event payload :
  Q (Emit {[sid]} event payload) → sends I Q (socket_emit sid event payload).
Proof. intros HQ st HI. split; [done|by repeat constructor]. Qed.

Lemma sends_io_to_emit room event payload :
  (∀ st, I st → Q (Emit (members st room) event payload)) →
  sends I Q (io_to_emit room event payload).
Proof. intros HQ st HI. split; [done|]. repeat constructor. by apply HQ. Qed.

Lemma sends_socket_to_emit sid room event payload :
  (∀ st, I st → Q (Emit (members st room ∖ {[sid]}) event payload)) →
  sends I Q (socket_to_emit sid room event payload).
Proof. intros HQ st HI. split; [done|]. repeat constructor. by apply HQ. Qed.
End sends.

Ltac sends_steps :=
  repeat first
    [ apply sends_the_ChatService
    | apply sends_the_NotificationService
    | apply sends_forEach; intros ?
    | apply sends_notify_participant; done
    | apply sends_ret | apply sends_throw
    | apply sends_call; done
    | apply sends_try_catch; [|intros ?]
    | apply sends_if
    | apply sends_bind_lift; intros ? ?
    | apply sends_bind; [|intros ?] ].

Lemma handler_errors_to_sender sc sid s now ev :
  sends (λ _, True) (error_to sid) (handler sc sid s now ev).
Proof.
  destruct ev; cbn [handler];
    unfold on_join_chat, on_leave_chat, on_send_message, on_typing,
      on_update_location, on_job_status_update, on_place_bid,
      on_subscribe_new_jobs, socket_join, socket_leave;
    sends_steps;
    try (first [ apply sends_socket_emit | apply sends_io_to_emit; intros ? _
          | apply sends_socket_to_emit; intros ? _ | by apply sends_modify ];
    done).
Qed.

Lemma within_adapter_add sid r room (S : gset nat) st :
  members st room ⊆ {[sid]} ∪ S →
  members (adapter_add sid r st) room ⊆ {[sid]} ∪ S.
Proof.
  intros H. rewrite members_adapter_add. case_decide; [|done].
  apply union_least; [apply union_subseteq_l|done].
Qed.

Lemma within_adapter_del sid r room (S : gset nat) st :
  members st room ⊆ {[sid]} ∪ S →
  members (adapter_del sid r st) room ⊆ {[sid]} ∪ S.
Proof.
  intros H. rewrite members_adapter_del. case_decide; [|done].
  etrans; [apply subseteq_difference_l|]; done.
Qed.

Lemma job_of_Returned data jobId :
  get_prop data "jobId" = Returned jobId → job_of data = jobId.
Proof. unfold job_of. by intros ->. Qed.

Ltac within_emit :=
  try match goal with
      | H : get_prop _ "jobId" = Returned _ |- _ =>
          rewrite (job_of_Returned _ _ H)
      end;
  first
    [ apply sends_socket_emit; apply union_subseteq_l
    | apply sends_io_to_emit; intros ? ?; simpl;
      assumption
    | apply sends_socket_to_emit; intros ? ?; simpl;
      (etrans; [apply subseteq_difference_l|]; [reflexivity|assumption])
    | apply sends_modify; intros ? ?;
      first [ by apply within_adapter_add | by apply within_adapter_del
            | assumption ] ].

Lemma handler_packets_within sc sid s now ev (S : gset nat) :
  sends (λ st, members st (event_room ev) ⊆ {[sid]} ∪ S)
    (packet_within ({[sid]} ∪ S)) (handler sc sid s now ev).
Proof.
  destruct ev; cbn [handler event_room];
    unfold on_join_chat, on_leave_chat, on_send_message, on_typing,
      on_update_location, on_job_status_update, on_place_bid,
      on_subscribe_new_jobs, socket_join, socket_leave;
    sends_steps; within_emit.
Qed.

Lemma reachable_server_after sc inputs st :
  (run sc None inputs).1 = Some st → reachable sc (Some st).
Proof. intros <-. apply reachable_run, reachable_start. Qed.

(** Property X1.  Whatever a connected client sends, every packet the
    event causes goes to connections among the sender and the members, at
    that moment, of the one room the event names. *)
Theorem X1_packets_stay_with_sender_and_room sc st sid s now ev rs event payload :
  sockets st !! sid = Some s →
  Emit rs event payload ∈ (step sc (Some st) (Inbound sid now ev)).2 →
  rs ⊆ {[sid]} ∪ members st (event_room ev).
Proof.
  intros Hs. rewrite (step_inbound _ _ _ s) by done. cbn [snd]. intros Hin.
  destruct (handler_packets_within sc sid s now ev
              (members st (event_room ev)) st) as [_ H].
  { apply union_subseteq_r. }
  rewrite Forall_forall in H. apply (H _ Hin).
Qed.

Lemma X1_packets_stay_with_sender_and_room_witness :
  members two_in_chat (chat_room (JInt 5))
  ⊆ {[1%nat]} ∪ members two_in_chat (event_room (SendMessage (JObj hello5))).
Proof.
  apply (X1_packets_stay_with_sender_and_room (fixture_scope true true)
           two_in_chat 1 ann (JInt 12) (SendMessage (JObj hello5))
           (members two_in_chat (chat_room (JInt 5))) "new-message"
           (JObj [("id", JInt 100);
                  ("saved", message_draft ann (JInt 12) (JInt 5) (JStr "hello")
                              (JStr "text"))])).
  - vm_compute; reflexivity.
  - vm_compute. do 2 apply list_elem_of_further. apply list_elem_of_here.
Defined.

(** Property X2.  Every [error] packet an event causes goes to the sender
    of the event and to nobody else. *)
Theorem X2_errors_go_to_sender_only sc st sid s now ev rs payload :
  sockets st !! sid = Some s →
  Emit rs "error" payload ∈ (step sc (Some st) (Inbound sid now ev)).2 →
  rs = {[sid]}.
Proof.
  intros Hs. rewrite (step_inbound _ _ _ s) by done. cbn [snd]. intros Hin.
  destruct (handler_errors_to_sender sc sid s now ev st I) as [_ H].
  rewrite Forall_forall in H. by apply (H _ Hin).
Qed.

Lemma X2_errors_go_to_sender_only_witness :
  ({[1%nat]} : gset nat) = {[1%nat]}.
Proof.
  apply (X2_errors_go_to_sender_only (fixture_scope false true)
           two_in_chat 1 ann (JInt 12) (SendMessage (JObj hello5))
           {[1%nat]} (error_payload "Access denied")).
  - vm_compute; reflexivity.
  - vm_compute. apply list_elem_of_further, list_elem_of_here.
Defined.

Section run_more.
Context {A B : Type}.

Lemma run_lift_Thrown e (k : A → M B) st :
  bind (lift (Thrown e)) k st = mkRes st [] (Thrown e).
Proof. done. Qed.

Lemma run_socket_emit sid event payload (k : unit → M B) st :
  bind (socket_emit sid event payload) k st
  = after [Emit {[sid]} event payload] (k tt st).
Proof. done. Qed.

Lemma run_socket_to_emit sid room event payload (k : unit → M B) st :
  bind (socket_to_emit sid room event payload) k st
  = after [Emit (members st room ∖ {[sid]}) event payload] (k tt st).
Proof. done. Qed.
End run_more.

Lemma inbox_one c rs event payload :
  inbox c [Emit rs event payload]
  = if decide (c ∈ rs) then [(event, payload)] else [].
Proof. done. Qed.

(** [join-chat], access granted. *)
Lemma on_join_chat_granted sc sid s now jobId st v :
  access_check sc s jobId = Returned v → truthy v = true →
  on_join_chat sc sid s now jobId st
  = match recent_messages sc jobId with
    | Returned history =>
        mkRes (adapter_add sid (chat_room jobId) st)
          [Call "ChatService.verifyChatAccess" [jobId; userId s; userRole s];
           Call "ChatService.getRecentMessages" [jobId];
           Emit {[sid]} "chat-history" history;
           Emit (members (adapter_add sid (chat_room jobId) st)
                   (chat_room jobId) ∖ {[sid]})
             "user-joined" (presence s now)]
          (Returned tt)
    | Thrown _ =>
        mkRes (adapter_add sid (chat_room jobId) st)
          [Call "ChatService.verifyChatAccess" [jobId; userId s; userRole s];
           Call "ChatService.getRecentMessages" [jobId];
           Emit {[sid]} "error" (error_payload "Failed to join chat")]
          (Returned tt)
    end.
Proof.
  unfold access_check, recent_messages, on_join_chat. intros Hacc Hv.
  destruct (ChatService sc) as [cs|] eqn:Ecs; [|done].
  destruct (getRecentMessages cs jobId) as [history|e] eqn:Eh.
  - erewrite run_try_catch; last first.
    { unfold the_ChatService at 1 2.
      rewrite Ecs, run_ret, Hacc, run_call_Returned.
      rewrite Hv. cbn [negb]. unfold socket_join.
      rewrite run_modify, run_ret, Eh, run_call_Returned, run_socket_emit.
      done. }
    done.
  - erewrite run_try_catch; last first.
    { unfold the_ChatService at 1 2.
      rewrite Ecs, run_ret, Hacc, run_call_Returned.
      rewrite Hv. cbn [negb]. unfold socket_join.
      rewrite run_modify, run_ret, Eh, run_call_Thrown. done. }
    done.
Qed.

Lemma joined_others sid room st :
  members (adapter_add sid room st) room ∖ {[sid]} = members st room ∖ {[sid]}.
Proof.
  rewrite members_adapter_add, decide_True by done.
  apply set_eq. intros x.
  rewrite !elem_of_difference, elem_of_union, elem_of_singleton. tauto.
Qed.

(** ** The chat handlers *)

(** Property X3.  A [join-chat] for a job id that prints, that passes the
    access check, with a history that loads: the connection is added to
    the chat room of the job and to no other room, it alone gets
    [chat-history], and the members that were in the room before, and only
    they, get [user-joined]. *)
Theorem X3_join_chat_granted sc st A s now jobId v history :
  sockets st !! A = Some s →
  prints jobId = true →
  access_check sc s jobId = Returned v → truthy v = true →
  recent_messages sc jobId = Returned history →
  let r := step sc (Some st) (Inbound A now (JoinChat jobId)) in
  ∃ st', r.1 = Some st' ∧
    sockets st' = sockets st ∧
    (∀ room, members st' room
             = if decide (chat_room jobId = room)
               then {[A]} ∪ members st room else members st room) ∧
    inbox A r.2 = [("chat-history", history)] ∧
    ∀ c, c ≠ A →
      inbox c r.2 = if decide (c ∈ members st (chat_room jobId))
                    then [("user-joined", presence s now)] else [].
Proof.
  intros Hs _ Hacc Hv Hh r. subst r.
  rewrite (step_inbound _ _ _ s) by done. cbn [handler].
  rewrite (on_join_chat_granted sc A s now jobId st v Hacc Hv), Hh.
  cbn [fst snd final trace]. eexists. split_and!; [done|done|..].
  - intros room. apply members_adapter_add.
  - rewrite joined_others. simpl.
    rewrite decide_True by (by apply elem_of_singleton).
    rewrite decide_False; [done|].
    rewrite elem_of_difference, elem_of_singleton. tauto.
  - intros c Hc. rewrite joined_others. simpl.
    rewrite decide_False by (by rewrite elem_of_singleton).
    destruct (decide (c ∈ members st (chat_room jobId))) as [H|H].
    + rewrite decide_True; [done|].
      rewrite elem_of_difference, elem_of_singleton. tauto.
    + rewrite decide_False; [done|].
      rewrite elem_of_difference. tauto.
Qed.

Lemma X3_join_chat_granted_witness :
  let r := step (fixture_scope true true) (Some bob_in_chat)
             (Inbound 1 (JInt 10) (JoinChat (JInt 5))) in
  ∃ st', r.1 = Some st' ∧
    sockets st' = sockets bob_in_chat ∧
    (∀ room, members st' room
             = if decide (chat_room (JInt 5) = room)
               then {[1%nat]} ∪ members bob_in_chat room
               else members bob_in_chat room) ∧
    inbox 1 r.2 = [("chat-history", JStr "history")] ∧
    ∀ c, c ≠ 1%nat →
      inbox c r.2 = if decide (c ∈ members bob_in_chat (chat_room (JInt 5)))
                    then [("user-joined", presence ann (JInt 10))] else [].
Proof.
  apply (X3_join_chat_granted (fixture_scope true true) bob_in_chat 1 ann
           (JInt 10) (JInt 5) (JBool true) (JStr "history")).
  - vm_compute; reflexivity.
  - reflexivity.
  - reflexivity.
  - reflexivity.
  - reflexivity.
Defined.

(** Property X4.  A [join-chat] for a job id that prints, that passes the
    access check but whose history fails to load: the sender is told
    [Failed to join chat] and nothing else is sent, yet the connection is
    in the chat room. *)
Theorem X4_join_chat_history_failure sc st A s now jobId v e :
  sockets st !! A = Some s →
  prints jobId = true →
  access_check sc s jobId = Returned v → truthy v = true →
  recent_messages sc jobId = Thrown e →
  let r := step sc (Some st) (Inbound A now (JoinChat jobId)) in
  ∃ st', r.1 = Some st' ∧
    A ∈ members st' (chat_room jobId) ∧
    packets r.2 = [Emit {[A]} "error" (error_payload "Failed to join chat")].
Proof.
  intros Hs _ Hacc Hv Hh r. subst r.
  rewrite (step_inbound _ _ _ s) by done. cbn [handler].
  rewrite (on_join_chat_granted sc A s now jobId st v Hacc Hv), Hh.
  cbn [fst snd final trace]. eexists. split_and!; [done| |done].
  rewrite members_adapter_add, decide_True by done.
  apply elem_of_union_l. by apply elem_of_singleton.
Qed.

Lemma X4_join_chat_history_failure_witness :
  let r := step (fixture_peers_scope false) (Some bob_in_chat)
             (Inbound 1 (JInt 10) (JoinChat (JInt 5))) in
  ∃ st', r.1 = Some st' ∧
    1%nat ∈ members st' (chat_room (JInt 5)) ∧
    packets r.2
    = [Emit {[1%nat]} "error" (error_payload "Failed to join chat")].
Proof.
  apply (X4_join_chat_history_failure (fixture_peers_scope false) bob_in_chat
           1 ann (JInt 10) (JInt 5) (JBool true) "SequelizeConnectionError").
  - vm_compute; reflexivity.
  - reflexivity.
  - reflexivity.
  - reflexivity.
  - reflexivity.
Defined.

(** Property X5.  A [leave-chat] for a job id that prints asks nobody:
    the connection is taken out of the chat room of the job, no other room
    changes, and [user-left] goes to the members that remain, never to the
    sender, whether or not the sender was in the room. *)
Theorem X5_leave_chat_notifies_room sc st A s now jobId :
  sockets st !! A = Some s →
  prints jobId = true →
  let r := step sc (Some st) (Inbound A now (LeaveChat jobId)) in
  ∃ st', r.1 = Some st' ∧
    sockets st' = sockets st ∧
    (∀ room, members st' room
             = if decide (chat_room jobId = room)
               then members st room ∖ {[A]} else members st room) ∧
    ∀ c, inbox c r.2
         = if decide (c ∈ members st (chat_room jobId) ∧ c ≠ A)
           then [("user-left", presence s now)] else [].
Proof.
  intros Hs _ r. subst r.
  rewrite (step_inbound _ _ _ s) by done. cbn [handler].
  unfold on_leave_chat, socket_leave. rewrite run_modify.
  cbn [fst snd final trace socket_to_emit].
  eexists. split_and!; [done|done|..].
  - intros room. apply members_adapter_del.
  - intros c. rewrite inbox_one, members_adapter_del.
    rewrite (decide_True (P:=chat_room jobId = chat_room jobId)) by done.
    apply decide_ext.
    rewrite !elem_of_difference, elem_of_singleton. tauto.
Qed.

Lemma X5_leave_chat_notifies_room_witness :
  let r := step fixture_as_written (Some two_in_chat)
             (Inbound 1 (JInt 12) (LeaveChat (JInt 5))) in
  ∃ st', r.1 = Some st' ∧
    sockets st' = sockets two_in_chat ∧
    (∀ room, members st' room
             = if decide (chat_room (JInt 5) = room)
               then members two_in_chat room ∖ {[1%nat]}
               else members two_in_chat room) ∧
    ∀ c, inbox c r.2
         = if decide (c ∈ members two_in_chat (chat_room (JInt 5)) ∧ c ≠ 1%nat)
           then [("user-left", presence ann (JInt 12))] else [].
Proof.
  apply (X5_leave_chat_notifies_room fixture_as_written two_in_chat 1 ann
           (JInt 12) (JInt 5)).
  - vm_compute; reflexivity.
  - reflexivity.
Defined.

(** Property X6.  A [typing] event whose payload destructures and whose
    job id prints is relayed without any check, to the members of the chat
    room of the job other than the sender, also when the sender is not in
    that room; the state is unchanged and no collaborator is called. *)
Theorem X6_typing_skips_sender sc st A s now jobId isTyping :
  sockets st !! A = Some s →
  prints jobId = true →
  let r := step sc (Some st) (Inbound A now (Typing jobId isTyping)) in
  r.1 = Some st ∧ calls r.2 = [] ∧
  ∀ c, inbox c r.2
       = if decide (c ∈ members st (chat_room jobId) ∧ c ≠ A)
         then [("typing",
                JObj [("userId", userId s); ("userName", userName s);
                      ("isTyping", isTyping); ("timestamp", now)])]
         else [].
Proof.
  intros Hs _ r. subst r.
  rewrite (step_inbound _ _ _ s) by done. cbn [handler].
  unfold on_typing. cbn [fst snd final trace socket_to_emit].
  split_and!; [done|done|].
  intros c. rewrite inbox_one. apply decide_ext.
  rewrite elem_of_difference, elem_of_singleton. tauto.
Qed.

Lemma X6_typing_skips_sender_witness :
  let r := step fixture_as_written (Some bob_in_chat)
             (Inbound 1 (JInt 12) (Typing (JInt 5) (JBool true))) in
  r.1 = Some bob_in_chat ∧ calls r.2 = [] ∧
  ∀ c, inbox c r.2
       = if decide (c ∈ members bob_in_chat (chat_room (JInt 5)) ∧ c ≠ 1%nat)
         then [("typing",
                JObj [("userId", userId ann); ("userName", userName ann);
                      ("isTyping", JBool true); ("timestamp", JInt 12)])]
         else [].
Proof.
  apply (X6_typing_skips_sender fixture_as_written bob_in_chat 1 ann
           (JInt 12) (JInt 5) (JBool true)).
  - vm_compute; reflexivity.
  - reflexivity.
Defined.

(** ** The driver handlers *)

(** Property X7.  An [update-location] for a job id that prints, that
    passes the driver check and whose update is stored: [driver-location]
    goes to every member of the chat room of the job, and to the sender
    only if it is one of them; the state is unchanged. *)
Theorem X7_update_location_reaches_room sc st A s now fs v u :
  sockets st !! A = Some s →
  prints (assoc "jobId" fs) = true →
  driver_access sc s (assoc "jobId" fs) = Returned v → truthy v = true →
  updateDriverLocation (JobService sc) (assoc "jobId" fs) (userId s)
    (assoc "lat" fs) (assoc "lng" fs) = Returned u →
  let r := step sc (Some st) (Inbound A now (UpdateLocation (JObj fs))) in
  r.1 = Some st ∧
  calls r.2 = ["JobService.verifyDriverJobAccess";
               "JobService.updateDriverLocation"] ∧
  ∀ c, inbox c r.2
       = if decide (c ∈ members st (chat_room (assoc "jobId" fs)))
         then [("driver-location", location_payload s now fs)] else [].
Proof.
  unfold driver_access. intros Hs _ Hacc Hv Hup. cbv zeta.
  rewrite (step_inbound _ _ _ s) by done. cbn [handler].
  unfold on_update_location.
  erewrite run_try_catch; last first.
  { cbn [get_prop]. rewrite !run_lift_Returned, Hacc, run_call_Returned.
    rewrite Hv. cbn [negb]. rewrite Hup, run_call_Returned. done. }
  done.
Qed.

Lemma X7_update_location_reaches_room_witness :
  let r := step (fixture_jobs_scope true) (Some two_in_chat)
             (Inbound 3 (JInt 12) (UpdateLocation (JObj location5))) in
  r.1 = Some two_in_chat ∧
  calls r.2 = ["JobService.verifyDriverJobAccess";
               "JobService.updateDriverLocation"] ∧
  ∀ c, inbox c r.2
       = if decide (c ∈ members two_in_chat (chat_room (assoc "jobId" location5)))
         then [("driver-location", location_payload root (JInt 12) location5)]
         else [].
Proof.
  apply (X7_update_location_reaches_room (fixture_jobs_scope true) two_in_chat
           3 root (JInt 12) location5 (JBool true) JUndefined).
  - vm_compute; reflexivity.
  - reflexivity.
  - reflexivity.
  - reflexivity.
  - reflexivity.
Defined.

(** Property X8.  When [JobService.verifyDriverJobAccess] answers falsy
    or throws, [update-location] and [job-status-update] both stop there:
    the check is the only collaborator method called, the state is
    unchanged, and the one packet is an error to the sender. *)
Theorem X8_driver_check_refuses sc st A s now fs :
  sockets st !! A = Some s →
  granted (driver_access sc s (assoc "jobId" fs)) = false →
  refused_at "JobService.verifyDriverJobAccess" A st
    (step sc (Some st) (Inbound A now (UpdateLocation (JObj fs)))) ∧
  refused_at "JobService.verifyDriverJobAccess" A st
    (step sc (Some st) (Inbound A now (JobStatusUpdate (JObj fs)))).
Proof.
  unfold driver_access, refused_at. intros Hs Hg.
  rewrite !(step_inbound _ _ _ s) by done. cbn [handler fst snd].
  unfold on_update_location, on_job_status_update.
  cbn [get_prop].
  split.
  - destruct (verifyDriverJobAccess _ _ _) as [v|e] eqn:E.
    + erewrite run_try_catch; last first.
      { rewrite !run_lift_Returned, E, run_call_Returned.
        simpl in Hg. rewrite Hg. cbn [negb]. done. }
      simpl. split_and!; [done|done|by eexists].
    + erewrite run_try_catch; last first.
      { rewrite !run_lift_Returned, E, run_call_Thrown. done. }
      simpl. split_and!; [done|done|by eexists].
  - destruct (verifyDriverJobAccess _ _ _) as [v|e] eqn:E.
    + erewrite run_try_catch; last first.
      { rewrite !run_lift_Returned, E, run_call_Returned.
        simpl in Hg. rewrite Hg. cbn [negb]. done. }
      simpl. split_and!; [done|done|by eexists].
    + erewrite run_try_catch; last first.
      { rewrite !run_lift_Returned, E, run_call_Thrown. done. }
      simpl. split_and!; [done|done|by eexists].
Qed.

Lemma X8_driver_check_refuses_witness :
  refused_at "JobService.verifyDriverJobAccess" 2 two_in_chat
    (step (fixture_jobs_scope false) (Some two_in_chat)
       (Inbound 2 (JInt 12) (UpdateLocation (JObj status5)))) ∧
  refused_at "JobService.verifyDriverJobAccess" 2 two_in_chat
    (step (fixture_jobs_scope false) (Some two_in_chat)
       (Inbound 2 (JInt 12) (JobStatusUpdate (JObj status5)))).
Proof.
  apply (X8_driver_check_refuses (fixture_jobs_scope false) two_in_chat 2 bob
           (JInt 12) status5).
  - vm_compute; reflexivity.
  - reflexivity.
Defined.

(** Property X9.  When [JobService.canDriverBid] answers falsy or throws,
    [place-bid] stops there: no bid is placed, the state is unchanged, and
    the one packet is an error to the sender. *)
Theorem X9_bid_check_refuses sc st A s now fs :
  sockets st !! A = Some s →
  granted (bid_access sc s (assoc "jobId" fs)) = false →
  refused_at "JobService.canDriverBid" A st
    (step sc (Some st) (Inbound A now (PlaceBid (JObj fs)))).
Proof.
  unfold bid_access, refused_at. intros Hs Hg.
  rewrite !(step_inbound _ _ _ s) by done. cbn [handler fst snd].
  unfold on_place_bid. cbn [get_prop].
  destruct (canDriverBid _ _ _) as [v|e] eqn:E.
  - erewrite run_try_catch; last first.
    { rewrite !run_lift_Returned, E, run_call_Returned.
      simpl in Hg. rewrite Hg. cbn [negb]. done. }
    simpl. split_and!; [done|done|by eexists].
  - erewrite run_try_catch; last first.
    { rewrite !run_lift_Returned, E, run_call_Thrown. done. }
    simpl. split_and!; [done|done|by eexists].
Qed.

Lemma X9_bid_check_refuses_witness :
  refused_at "JobService.canDriverBid" 2 two_in_chat
    (step (fixture_jobs_scope false) (Some two_in_chat)
       (Inbound 2 (JInt 12) (PlaceBid (JObj bid5)))).
Proof.
  apply (X9_bid_check_refuses (fixture_jobs_scope false) two_in_chat 2 bob
           (JInt 12) bid5).
  - vm_compute; reflexivity.
  - reflexivity.
Defined.

(** Property X10.  With [NotificationService] unbound, as the file has
    it, a [job-status-update] for a job id that prints, that passes the
    check, updates the job and broadcasts [job-update] to the chat room,
    and then, failing at the notification, tells the sender
    [Failed to update job status]. *)
Theorem X10_job_status_update_then_error sc st A s now fs v u customerId :
  sockets st !! A = Some s →
  prints (assoc "jobId" fs) = true →
  NotificationService sc = None →
  driver_access sc s (assoc "jobId" fs) = Returned v → truthy v = true →
  updateJobStatus (JobService sc) (assoc "jobId" fs) (assoc "status" fs)
    (status_meta s fs) = Returned u →
  getJobCustomerId (JobService sc) (assoc "jobId" fs) = Returned customerId →
  let r := step sc (Some st) (Inbound A now (JobStatusUpdate (JObj fs))) in
  r.1 = Some st ∧
  packets r.2
  = [Emit (members st (chat_room (assoc "jobId" fs))) "job-update"
       (status_payload s now fs);
     Emit {[A]} "error" (error_payload "Failed to update job status")] ∧
  "JobService.updateJobStatus" ∈ calls r.2.
Proof.
  unfold driver_access. intros Hs _ Hns Hacc Hv Hup Hcust. cbv zeta.
  rewrite (step_inbound _ _ _ s) by done. cbn [handler].
  unfold on_job_status_update.
  erewrite run_try_catch; last first.
  { cbn [get_prop]. rewrite !run_lift_Returned, Hacc, run_call_Returned.
    rewrite Hv. cbn [negb]. unfold status_meta in Hup.
    rewrite Hup, run_call_Returned, run_io_to_emit, Hcust, run_call_Returned.
    unfold the_NotificationService. rewrite Hns, run_throw. done. }
  simpl. split_and!; [done|done|].
  apply list_elem_of_further, list_elem_of_here.
Qed.

Lemma X10_job_status_update_then_error_witness :
  let r := step (fixture_jobs_scope true) (Some two_in_chat)
             (Inbound 2 (JInt 12) (JobStatusUpdate (JObj status5))) in
  r.1 = Some two_in_chat ∧
  packets r.2
  = [Emit (members two_in_chat (chat_room (assoc "jobId" status5))) "job-update"
       (status_payload bob (JInt 12) status5);
     Emit {[2%nat]} "error" (error_payload "Failed to update job status")] ∧
  "JobService.updateJobStatus" ∈ calls r.2.
Proof.
  apply (X10_job_status_update_then_error (fixture_jobs_scope true) two_in_chat
           2 bob (JInt 12) status5 (JBool true)
           (JObj [("status", JStr "picked_up")]) (JInt 1)).
  - vm_compute; reflexivity.
  - reflexivity.
  - reflexivity.
  - reflexivity.
  - reflexivity.
  - reflexivity.
  - reflexivity.
Defined.

(** Property X11.  With [NotificationService] unbound, a [place-bid]
    that passes the check and whose [eta] is a value [new Date] converts
    places the bid and looks up the customer, and then, failing at the
    notification, tells the sender [Failed to place bid]; nothing else is
    sent. *)
Theorem X11_place_bid_then_error sc st A s now fs v bid customerId :
  sockets st !! A = Some s →
  prints (assoc "eta" fs) = true →
  NotificationService sc = None →
  bid_access sc s (assoc "jobId" fs) = Returned v → truthy v = true →
  placeBid (JobService sc) (bid_draft s fs) = Returned bid →
  getJobCustomerId (JobService sc) (assoc "jobId" fs) = Returned customerId →
  let r := step sc (Some st) (Inbound A now (PlaceBid (JObj fs))) in
  r.1 = Some st ∧
  calls r.2 = ["JobService.canDriverBid"; "JobService.placeBid";
               "JobService.getJobCustomerId"] ∧
  packets r.2 = [Emit {[A]} "error" (error_payload "Failed to place bid")].
Proof.
  unfold bid_access. intros Hs _ Hns Hacc Hv Hbid Hcust. cbv zeta.
  rewrite (step_inbound _ _ _ s) by done. cbn [handler].
  unfold on_place_bid.
  erewrite run_try_catch; last first.
  { cbn [get_prop]. rewrite !run_lift_Returned, Hacc, run_call_Returned.
    rewrite Hv. cbn [negb]. unfold bid_draft in Hbid.
    rewrite Hbid, run_call_Returned, Hcust, run_call_Returned.
    unfold the_NotificationService. rewrite Hns, run_throw. done. }
  done.
Qed.

Lemma X11_place_bid_then_error_witness :
  let r := step (fixture_jobs_scope true) (Some two_in_chat)
             (Inbound 2 (JInt 12) (PlaceBid (JObj bid5))) in
  r.1 = Some two_in_chat ∧
  calls r.2 = ["JobService.canDriverBid"; "JobService.placeBid";
               "JobService.getJobCustomerId"] ∧
  packets r.2 = [Emit {[2%nat]} "error" (error_payload "Failed to place bid")].
Proof.
  apply (X11_place_bid_then_error (fixture_jobs_scope true) two_in_chat
           2 bob (JInt 12) bid5 (JBool true)
           (JObj [("id", JInt 200); ("bid", bid_draft bob bid5)]) (JInt 1)).
  - vm_compute; reflexivity.
  - reflexivity.
  - reflexivity.
  - reflexivity.
  - reflexivity.
  - reflexivity.
  - reflexivity.
Defined.

Lemma on_place_bid_private sc sid s now data st0 :
  sends (λ st, st = st0) (only_error_to sid) (on_place_bid sc sid s now data).
Proof.
  unfold on_place_bid. sends_steps; by apply sends_socket_emit.
Qed.

Lemma inbox_only_error_to c sid out :
  c ≠ sid → Forall (only_error_to sid) out → inbox c out = [].
Proof.
  intros Hc. induction 1 as [|e out He _ IH]; [done|].
  destruct e as [rs event payload| |]; simpl; [|done..].
  destruct He as [-> _]. rewrite decide_False; [done|].
  by rewrite elem_of_singleton.
Qed.

(** Property X12.  Whatever its payload and whatever the collaborators
    answer, a [place-bid] changes no state, sends nothing to any other
    connection, and sends the bidder nothing but errors: no socket event
    tells anybody of a bid. *)
Theorem X12_place_bid_is_private sc st A s now data :
  sockets st !! A = Some s →
  let r := step sc (Some st) (Inbound A now (PlaceBid data)) in
  r.1 = Some st ∧
  (∀ c, c ≠ A → inbox c r.2 = []) ∧
  ∀ event payload, (event, payload) ∈ inbox A r.2 → event = "error".
Proof.
  intros Hs. cbv zeta.
  rewrite (step_inbound _ _ _ s) by done. cbn [handler fst snd].
  destruct (on_place_bid_private sc A s now data st st eq_refl) as [-> H].
  split_and!; [done|by intros c Hc; apply (inbox_only_error_to c A)|].
  intros event payload. induction H as [|e out He _ IH]; simpl.
  - by intros ?%not_elem_of_nil.
  - destruct e as [rs ev p| |]; simpl in *; [|done..].
    destruct He as [-> ->]. rewrite decide_True by (by apply elem_of_singleton).
    rewrite elem_of_cons. intros [[= -> _]|?]; [done|auto].
Qed.

Lemma X12_place_bid_is_private_witness :
  let r := step (fixture_jobs_scope true) (Some two_in_chat)
             (Inbound 2 (JInt 12) (PlaceBid (JObj bid5))) in
  r.1 = Some two_in_chat ∧
  (∀ c, c ≠ 2%nat → inbox c r.2 = []) ∧
  ∀ event payload, (event, payload) ∈ inbox 2 r.2 → event = "error".
Proof.
  apply (X12_place_bid_is_private (fixture_jobs_scope true) two_in_chat 2 bob
           (JInt 12) (JObj bid5)).
  vm_compute; reflexivity.
Defined.

Lemma notify_unbound {B} sc s jobId message p (k : unit → M B) st :
  NotificationService sc = None →
  bind (notify_participant sc s jobId message p) k st
  = mkRes st [] (Thrown "ReferenceError: NotificationService is not defined").
Proof.
  intros Hns. unfold notify_participant, the_NotificationService.
  by rewrite Hns.
Qed.

(** Property X13.  With [ChatService] provided and [NotificationService]
    unbound, a [send-message] for a job id that prints, once saved, is
    broadcast to the chat room; if the job has any other participant the
    handler then fails at the first notification and also tells the sender
    [Failed to send message]. *)
Theorem X13_send_message_then_notify_error sc st A s now fs v chatMessage ps :
  sockets st !! A = Some s →
  prints (assoc "jobId" fs) = true →
  NotificationService sc = None →
  access_check sc s (assoc "jobId" fs) = Returned v → truthy v = true →
  persist sc (message_draft s now (assoc "jobId" fs) (assoc "message" fs)
                (or_default (assoc "type" fs) (JStr "text")))
    = Returned chatMessage →
  other_participants sc s (assoc "jobId" fs) = Returned ps →
  let r := step sc (Some st) (Inbound A now (SendMessage (JObj fs))) in
  r.1 = Some st ∧
  packets r.2
  = Emit (members st (chat_room (assoc "jobId" fs))) "new-message" chatMessage
    :: match ps with
       | [] => []
       | _ :: _ =>
           [Emit {[A]} "error" (error_payload "Failed to send message")]
       end.
Proof.
  unfold access_check, persist, other_participants.
  intros Hs _ Hns Hacc Hv Hsave Hps. cbv zeta.
  rewrite (step_inbound _ _ _ s) by done. cbn [handler].
  unfold on_send_message.
  destruct (ChatService sc) as [cs|] eqn:Ecs; [|done].
  erewrite run_try_catch; last first.
  { cbn [get_prop]. rewrite !run_lift_Returned.
    unfold the_ChatService at 1 2.
    rewrite Ecs, run_ret, Hacc, run_call_Returned.
    rewrite Hv. cbn [negb].
    rewrite run_ret, Hsave, run_call_Returned, run_io_to_emit.
    unfold the_ChatService. rewrite Ecs, run_ret, Hps, run_call_Returned.
    done. }
  destruct ps as [|p ps]; [done|].
  cbn [forEach]. by rewrite notify_unbound.
Qed.

Lemma X13_send_message_then_notify_error_witness :
  let r := step (fixture_peers_scope true) (Some two_in_chat)
             (Inbound 1 (JInt 12) (SendMessage (JObj hello5))) in
  r.1 = Some two_in_chat ∧
  packets r.2
  = Emit (members two_in_chat (chat_room (assoc "jobId" hello5))) "new-message"
      (JObj [("id", JInt 100);
             ("saved", message_draft ann (JInt 12) (assoc "jobId" hello5)
                         (assoc "message" hello5)
                         (or_default (assoc "type" hello5) (JStr "text")))])
    :: match [JObj [("userId", JInt 2)]] with
       | [] => []
       | _ :: _ =>
           [Emit {[1%nat]} "error" (error_payload "Failed to send message")]
       end.
Proof.
  apply (X13_send_message_then_notify_error (fixture_peers_scope true)
           two_in_chat 1 ann (JInt 12) hello5 (JBool true)
           (JObj [("id", JInt 100);
                  ("saved", message_draft ann (JInt 12) (assoc "jobId" hello5)
                              (assoc "message" hello5)
                              (or_default (assoc "type" hello5) (JStr "text")))])
           [JObj [("userId", JInt 2)]]).
  - vm_compute; reflexivity.
  - reflexivity.
  - reflexivity.
  - reflexivity.
  - reflexivity.
  - reflexivity.
  - reflexivity.
Defined.

(** ** Invariants of the transition system *)

Lemma step_keeps sc (P : Server → Prop) :
  P new_server →
  (∀ st sid token s, P st → sockets st !! sid = None →
     auth_middleware sc token = NextOk s →
     P (adapter_add sid (user_room (userId s)) (add_socket sid s st))) →
  (∀ st sid s now ev, P st → sockets st !! sid = Some s →
     P (final (handler sc sid s now ev st))) →
  (∀ st sid s, P st → sockets st !! sid = Some s →
     P (remove_socket sid (adapter_delAll sid st))) →
  ∀ io i st', (∀ st, io = Some st → P st) →
    (step sc io i).1 = Some st' → P st'.
Proof.
  intros Hnew Hconn Hhand Hdisc io i st' Hio.
  destruct i; cbn [step].
  - by intros [= <-].
  - destruct io as [st|]; [|done]. specialize (Hio st eq_refl).
    destruct (sockets st !! sid) eqn:Es; [by intros [= <-]|].
    cbn [fst]. intros [= <-]. unfold connect.
    destruct (auth_middleware sc token) as [s|message] eqn:Ea; [|done].
    unfold on_connection, socket_join. rewrite run_modify.
    by apply (Hconn st sid token).
  - destruct io as [st|]; [|done]. specialize (Hio st eq_refl).
    cbn [fst]. intros [= <-]. unfold inbound.
    destruct (sockets st !! sid) as [s|] eqn:Es; [|done]. by apply Hhand.
  - destruct io as [st|]; [|done]. specialize (Hio st eq_refl).
    cbn [fst]. intros [= <-]. unfold disconnect.
    destruct (sockets st !! sid) as [s|] eqn:Es; [|done].
    rewrite !run_modify. unfold on_disconnect.
    destruct (truthy (currentChatRoom s)); by apply (Hdisc st sid s).
  - cbn [fst]. auto.
  - cbn [fst]. auto.
  - cbn [fst]. auto.
  - cbn [fst]. auto.
Qed.

Lemma reachable_keeps sc (P : Server → Prop) :
  (∀ io i st', (∀ st, io = Some st → P st) →
     (step sc io i).1 = Some st' → P st') →
  ∀ io, reachable sc io → ∀ st, io = Some st → P st.
Proof.
  intros Hstep io. induction 1 as [|io i _ IH]; [done|].
  intros st' E. by eapply Hstep.
Qed.

Lemma on_join_chat_final sc sid s now jobId st :
  final (on_join_chat sc sid s now jobId st) = st ∨
  (access_granted sc s jobId = true ∧
   final (on_join_chat sc sid s now jobId st)
   = adapter_add sid (chat_room jobId) st).
Proof.
  destruct (access_granted sc s jobId) eqn:Hg.
  - right. split; [done|]. unfold access_granted in Hg.
    destruct (access_check sc s jobId) as [v|e] eqn:Hacc; [|done].
    rewrite (on_join_chat_granted sc sid s now jobId st v Hacc Hg).
    by destruct (recent_messages sc jobId).
  - left. by apply on_join_chat_refused.
Qed.

(** What a handler does to the state is one of four writes. *)
Lemma handler_keeps sc sid s now ev (P : Server → Prop) :
  (∀ st p, P st → P (set_locationPreference sid p st)) →
  (∀ st jobId, P st → P (adapter_del sid (chat_room jobId) st)) →
  (∀ st lat lng r, P st → P (adapter_add sid (locationKey lat lng r) st)) →
  (∀ st jobId, P st → access_granted sc s jobId = true →
     P (adapter_add sid (chat_room jobId) st)) →
  preserves P (handler sc sid s now ev).
Proof.
  intros Hpref Hdel Hloc Hjoin.
  destruct ev; cbn [handler].
  - intros st HP.
    destruct (on_join_chat_final sc sid s now jobId st) as [->|[Hg ->]];
      [done|by apply Hjoin].
  - unfold on_leave_chat, socket_leave. preserves_steps.
    intros st. apply Hdel.
  - unfold on_send_message. preserves_steps.
  - unfold on_typing. preserves_steps.
  - unfold on_update_location. preserves_steps.
  - unfold on_job_status_update. preserves_steps.
  - unfold on_place_bid. preserves_steps.
  - unfold on_subscribe_new_jobs, socket_join. preserves_steps.
    + intros st. apply Hloc.
    + intros st. apply Hpref.
Qed.

(** *** No socket has a [currentChatRoom] *)

Lemma auth_middleware_fresh sc token s :
  auth_middleware sc token = NextOk s →
  currentChatRoom s = JUndefined ∧ locationPreference s = None.
Proof.
  unfold auth_middleware. intros H.
  repeat (case_match; try done). by injection H as <-.
Qed.

Lemma typing_room_unset_pref sid p st :
  typing_room_unset st → typing_room_unset (set_locationPreference sid p st).
Proof.
  intros H c s. cbn [set_locationPreference sockets].
  rewrite lookup_alter. case_decide; [subst|by apply H].
  destruct (sockets st !! c) as [s0|] eqn:E; [|done].
  intros [= <-]. by apply (H c s0).
Qed.

Lemma typing_room_unset_step sc io i st' :
  (∀ st, io = Some st → typing_room_unset st) →
  (step sc io i).1 = Some st' → typing_room_unset st'.
Proof.
  apply step_keeps.
  - by intros c s.
  - intros st sid token s H Hsid Ha c s'. cbn.
    rewrite lookup_insert. case_decide; [|by apply H].
    intros [= <-]. by apply auth_middleware_fresh in Ha as [? _].
  - intros st sid s now ev H _. revert st H.
    apply handler_keeps.
    + intros st p. apply typing_room_unset_pref.
    + intros st jobId H c s'. apply H.
    + intros st lat lng r H c s'. apply H.
    + intros st jobId H _ c s'. apply H.
  - intros st sid s H Hs c s'. cbn.
    rewrite lookup_delete. case_decide; [done|by apply H].
Qed.

(** Property X14.  No line of the module assigns [socket.currentChatRoom],
    so in every state the module can reach the typing clean-up of the
    disconnect handler does not fire: a disconnect sends nothing. *)
Theorem X14_reachable_disconnect_is_silent sc io sid now :
  reachable sc io → (step sc io (Disconnect sid now)).2 = [].
Proof.
  intros Hio. destruct io as [st|]; [|done].
  pose proof (reachable_keeps sc typing_room_unset
                (typing_room_unset_step sc) _ Hio st eq_refl) as H.
  cbn [step snd]. unfold disconnect.
  destruct (sockets st !! sid) as [s|] eqn:Es; [|done].
  rewrite !run_modify. unfold on_disconnect.
  by rewrite (H sid s Es).
Qed.

Lemma X14_reachable_disconnect_is_silent_witness :
  (step (fixture_scope true true)
     (run (fixture_scope true true) None
        (three_connected ++ [Inbound 1 (JInt 10) (JoinChat (JInt 5));
                             Inbound 2 (JInt 11) (JoinChat (JInt 5))])).1
     (Disconnect 1 (JInt 12))).2 = [].
Proof.
  apply (X14_reachable_disconnect_is_silent (fixture_scope true true)
           (run (fixture_scope true true) None
              (three_connected ++ [Inbound 1 (JInt 10) (JoinChat (JInt 5));
                                   Inbound 2 (JInt 11) (JoinChat (JInt 5))])).1
           1 (JInt 12)).
  apply reachable_run, reachable_start.
Defined.

(** *** Room names of different kinds differ *)

Lemma user_room_inj uid uid' :
  user_room uid = user_room uid' ↔ ToString uid = ToString uid'.
Proof.
  unfold user_room. split; [|by intros ->].
  intros E. by apply (inj (String.app "user:")) in E.
Qed.

Lemma chat_not_user jobId uid : chat_room jobId ≠ user_room uid.
Proof. unfold chat_room, user_room. intros E. cbn [String.append] in E. discriminate. Qed.

Lemma location_not_user lat lng r uid : locationKey lat lng r ≠ user_room uid.
Proof. unfold locationKey, user_room. intros E. cbn [String.append] in E. discriminate. Qed.

Lemma location_not_chat lat lng r jobId : locationKey lat lng r ≠ chat_room jobId.
Proof. unfold locationKey, chat_room. intros E. cbn [String.append] in E. discriminate. Qed.

Lemma user_not_chat uid jobId : user_room uid ≠ chat_room jobId.
Proof. intros E. by apply (chat_not_user jobId uid). Qed.

(** *** Sockets under the one write a handler makes to them *)

Lemma lookup_set_locationPreference sid p st c :
  sockets (set_locationPreference sid p st) !! c
  = if decide (sid = c)
    then (λ s, {| userId := userId s; userRole := userRole s;
                  userName := userName s;
                  currentChatRoom := currentChatRoom s;
                  locationPreference := Some p |}) <$> sockets st !! sid
    else sockets st !! c.
Proof. cbn [set_locationPreference sockets]. apply lookup_alter. Qed.

Lemma connected_set_locationPreference sid p st c :
  is_Some (sockets (set_locationPreference sid p st) !! c)
  ↔ is_Some (sockets st !! c).
Proof.
  rewrite lookup_set_locationPreference. case_decide; [subst|done].
  by rewrite fmap_is_Some.
Qed.

(** *** No orphaned membership *)

Lemma no_orphans_handler sc sid s now ev :
  preserves (λ st, no_orphans st ∧ is_Some (sockets st !! sid))
    (handler sc sid s now ev).
Proof.
  apply handler_keeps.
  - intros st p [H Hs]. split; [|by apply connected_set_locationPreference].
    intros c room Hc. apply connected_set_locationPreference.
    by apply (H c room).
  - intros st jobId [H Hs]. split; [|done].
    intros c room. rewrite members_adapter_del.
    case_decide; [|apply H]. intros [Hc _]%elem_of_difference. by apply (H c room).
  - intros st lat lng r [H Hs]. split; [|done].
    intros c room. rewrite members_adapter_add.
    case_decide; [|apply H].
    intros [->%elem_of_singleton|Hc]%elem_of_union; [done|by apply (H c room)].
  - intros st jobId [H Hs] _. split; [|done].
    intros c room. rewrite members_adapter_add.
    case_decide; [|apply H].
    intros [->%elem_of_singleton|Hc]%elem_of_union; [done|by apply (H c room)].
Qed.

Lemma no_orphans_step sc io i st' :
  (∀ st, io = Some st → no_orphans st) →
  (step sc io i).1 = Some st' → no_orphans st'.
Proof.
  apply step_keeps.
  - intros c room. unfold members. cbn. rewrite lookup_empty. cbn.
    by intros ?%not_elem_of_empty.
  - intros st sid token s H Hsid Ha c room.
    rewrite members_adapter_add. cbn [add_socket sockets adapter_add].
    intros Hc. rewrite lookup_insert.
    destruct (decide (sid = c)) as [->|Hne]; [by eexists|].
    apply (H c room). case_decide; [|done].
    apply elem_of_union in Hc as [?%elem_of_singleton|?]; [congruence|done].
  - intros st sid s now ev H Hs.
    by apply (no_orphans_handler sc sid s now ev st).
  - intros st sid s H Hs c room.
    change (members (remove_socket sid (adapter_delAll sid st)) room)
      with (members (adapter_delAll sid st) room).
    rewrite members_adapter_delAll. cbn [remove_socket sockets adapter_delAll].
    intros [Hc Hne]%elem_of_difference. rewrite elem_of_singleton in Hne.
    rewrite lookup_delete_ne by done. by apply (H c room).
Qed.

(** Property X15.  In every state the module can reach, whoever is a
    member of a room is a connected socket: no room keeps a connection
    that has closed. *)
Theorem X15_members_are_connected sc st sid room :
  reachable sc (Some st) →
  sid ∈ members st room → is_Some (sockets st !! sid).
Proof.
  intros Hio.
  by apply (reachable_keeps sc no_orphans (no_orphans_step sc) _ Hio st).
Qed.

Lemma X15_members_are_connected_witness :
  is_Some (sockets two_in_chat !! 2%nat).
Proof.
  apply (X15_members_are_connected (fixture_scope true true) two_in_chat 2
           (chat_room (JInt 5))).
  - apply (reachable_server_after (fixture_scope true true)
             (three_connected ++ [Inbound 1 (JInt 10) (JoinChat (JInt 5));
                                  Inbound 2 (JInt 11) (JoinChat (JInt 5))])).
    vm_compute; reflexivity.
  - vm_compute; reflexivity.
Defined.

(** *** The room of a user id *)

Lemma user_channels_exact_handler sc sid s now ev :
  preserves user_channels_exact (handler sc sid s now ev).
Proof.
  apply handler_keeps.
  - intros st p H c uid.
    change (members (set_locationPreference sid p st) (user_room uid))
      with (members st (user_room uid)).
    rewrite (H c uid), lookup_set_locationPreference.
    case_decide; [subst c|done].
    destruct (sockets st !! sid) as [s0|]; cbn [fmap option_fmap option_map].
    + split; intros (s1 & [= <-] & E); eexists; (split; [done|]); exact E.
    + split; by intros (s1 & ? & _).
  - intros st jobId H c uid. rewrite members_adapter_del.
    case_decide as E; [by apply chat_not_user in E|apply H].
  - intros st lat lng r H c uid. rewrite members_adapter_add.
    case_decide as E; [by apply location_not_user in E|apply H].
  - intros st jobId H _ c uid. rewrite members_adapter_add.
    case_decide as E; [by apply chat_not_user in E|apply H].
Qed.

Lemma user_channels_exact_step sc io i st' :
  (∀ st, io = Some st → user_channels_exact st) →
  (step sc io i).1 = Some st' → user_channels_exact st'.
Proof.
  apply step_keeps.
  - intros c uid. unfold members. cbn. rewrite !lookup_empty. cbn.
    split; [by intros ?%not_elem_of_empty|by intros (s & ? & _)].
  - intros st sid token s H Hsid Ha c uid.
    rewrite members_adapter_add. cbn [add_socket sockets adapter_add].
    rewrite lookup_insert.
    destruct (decide (sid = c)) as [->|Hne].
    + assert (c ∉ members st (user_room uid)) as Hout.
      { intros (s0 & Hs0 & _)%H. congruence. }
      case_decide as E.
      * apply user_room_inj in E. split; [|set_solver].
        intros _. by exists s.
      * split; [done|]. intros (s0 & [= <-] & E').
        destruct E. by apply user_room_inj.
    + rewrite <-(H c uid). case_decide; [|done].
      rewrite elem_of_union, elem_of_singleton. naive_solver.
  - intros st sid s now ev H Hs.
    by apply (user_channels_exact_handler sc sid s now ev st).
  - intros st sid s H Hs c uid.
    change (members (remove_socket sid (adapter_delAll sid st)) (user_room uid))
      with (members (adapter_delAll sid st) (user_room uid)).
    rewrite members_adapter_delAll. cbn [remove_socket sockets adapter_delAll].
    rewrite elem_of_difference, elem_of_singleton, (H c uid), lookup_delete.
    case_decide; [subst|naive_solver].
    split; [by intros [_ ?]|by intros (s0 & ? & _)].
Qed.

(** Property X16.  In every state the module can reach, [emitToUser]
    reaches exactly the connections whose handshake bound a user id that
    prints as the id asked for: all the connections of that user, and the
    number [3] and the string ["3"] name the same one. *)
Theorem X16_emitToUser_reaches_bound_connections sc st c uid event data :
  reachable sc (Some st) →
  (event, data) ∈ inbox c (emitToUser (Some st) uid event data)
  ↔ ∃ s, sockets st !! c = Some s ∧ ToString (userId s) = ToString uid.
Proof.
  intros Hio.
  rewrite <-(reachable_keeps sc user_channels_exact
               (user_channels_exact_step sc) _ Hio st eq_refl c uid).
  cbn [emitToUser]. rewrite inbox_one.
  case_decide; [by rewrite list_elem_of_singleton|].
  split; [by intros ?%not_elem_of_nil|done].
Qed.

Lemma X16_emitToUser_reaches_bound_connections_witness :
  ("job-assigned", JInt 5)
    ∈ inbox 3 (emitToUser (Some (server_after fixture_as_written three_connected))
                 (JStr "3") "job-assigned" (JInt 5))
  ↔ ∃ s, sockets (server_after fixture_as_written three_connected) !! 3%nat
         = Some s ∧ ToString (userId s) = ToString (JStr "3").
Proof.
  apply (X16_emitToUser_reaches_bound_connections fixture_as_written
           (server_after fixture_as_written three_connected) 3 (JStr "3")
           "job-assigned" (JInt 5)).
  apply (reachable_server_after fixture_as_written three_connected).
  vm_compute; reflexivity.
Defined.

(** *** Chat rooms are entered through the access check only *)

Lemma access_granted_principal sc s s' jobId :
  userId s' = userId s → userRole s' = userRole s →
  access_granted sc s' jobId = access_granted sc s jobId.
Proof. unfold access_granted, access_check. by intros -> ->. Qed.

Lemma chat_members_granted_handler sc sid s now ev :
  preserves (λ st, chat_members_granted sc st ∧
               ∃ s', sockets st !! sid = Some s' ∧
                     userId s' = userId s ∧ userRole s' = userRole s)
    (handler sc sid s now ev).
Proof.
  apply handler_keeps.
  - intros st p [H (s' & Hs' & Hid & Hrole)]. split.
    + intros c jobId Hc. destruct (H c jobId Hc) as (s0 & j & Hs0 & Hj & Hg).
      rewrite lookup_set_locationPreference.
      case_decide; [subst c|by exists s0, j].
      rewrite Hs0. cbn [fmap option_fmap option_map].
      eexists _, j. split; [done|]. split; [done|].
      by rewrite <-Hg.
    + rewrite lookup_set_locationPreference, decide_True, Hs' by done.
      by eexists.
  - intros st jobId [H Hs]. split; [|done].
    intros c j. rewrite members_adapter_del.
    case_decide; [|apply H]. intros [Hc _]%elem_of_difference. by apply H.
  - intros st lat lng r [H Hs]. split; [|done].
    intros c j. rewrite members_adapter_add.
    case_decide as E; [by apply location_not_chat in E|apply H].
  - intros st jobId [H (s' & Hs' & Hid & Hrole)] Hg. split; [|by exists s'].
    intros c j. rewrite members_adapter_add.
    case_decide as E; [|apply H].
    intros [->%elem_of_singleton|Hc]%elem_of_union; [|by apply H].
    exists s', jobId. split; [done|]. split; [done|].
    by rewrite (access_granted_principal sc s s').
Qed.

Lemma chat_members_granted_step sc io i st' :
  (∀ st, io = Some st → chat_members_granted sc st) →
  (step sc io i).1 = Some st' → chat_members_granted sc st'.
Proof.
  apply step_keeps.
  - intros c jobId. unfold members. cbn. rewrite lookup_empty. cbn.
    by intros ?%not_elem_of_empty.
  - intros st sid token s H Hsid Ha c jobId.
    rewrite members_adapter_add. cbn [add_socket sockets adapter_add].
    case_decide as E; [by apply user_not_chat in E|].
    intros (s0 & j & Hs0 & Hj & Hg)%H. exists s0, j.
    rewrite lookup_insert_ne by congruence. done.
  - intros st sid s now ev H Hs.
    apply (chat_members_granted_handler sc sid s now ev st).
    split; [done|by exists s].
  - intros st sid s H Hs c jobId.
    change (members (remove_socket sid (adapter_delAll sid st)) (chat_room jobId))
      with (members (adapter_delAll sid st) (chat_room jobId)).
    rewrite members_adapter_delAll. cbn [remove_socket sockets adapter_delAll].
    intros [(s0 & j & Hs0 & Hj & Hg)%H Hne]%elem_of_difference.
    rewrite elem_of_singleton in Hne.
    exists s0, j. by rewrite lookup_delete_ne.
Qed.

(** Property X17.  For a chat service whose answers do not change during
    the run: in every state the module can reach, whoever is a member of a
    chat room is connected and passes the access check of a job of that
    room.  [join-chat] is the only way in. *)
Theorem X17_chat_members_passed_access_check sc st sid jobId :
  reachable sc (Some st) →
  sid ∈ members st (chat_room jobId) →
  ∃ s jobId', sockets st !! sid = Some s ∧
    chat_room jobId' = chat_room jobId ∧ access_granted sc s jobId' = true.
Proof.
  intros Hio.
  by apply (reachable_keeps sc (chat_members_granted sc)
              (chat_members_granted_step sc) _ Hio st).
Qed.

Lemma X17_chat_members_passed_access_check_witness :
  ∃ s jobId', sockets two_in_chat !! 1%nat = Some s ∧
    chat_room jobId' = chat_room (JInt 5) ∧
    access_granted (fixture_scope true true) s jobId' = true.
Proof.
  apply (X17_chat_members_passed_access_check (fixture_scope true true)
           two_in_chat 1 (JInt 5)).
  - apply (reachable_server_after (fixture_scope true true)
             (three_connected ++ [Inbound 1 (JInt 10) (JoinChat (JInt 5));
                                  Inbound 2 (JInt 11) (JoinChat (JInt 5))])).
    vm_compute; reflexivity.
  - vm_compute; reflexivity.
Defined.

(** *** What the handshake bound stays bound *)

Lemma identity_handler sc sid s now ev c s0 :
  preserves (λ st, ∃ s', sockets st !! c = Some s' ∧ identity s' = identity s0
                         ∧ currentChatRoom s' = currentChatRoom s0)
    (handler sc sid s now ev).
Proof.
  apply handler_keeps; try done.
  intros st p (s' & Hs' & Hid & Hroom).
  rewrite lookup_set_locationPreference.
  case_decide; [subst c|by exists s'].
  rewrite Hs'. cbn [fmap option_fmap option_map]. by eexists.
Qed.

(** Property X18.  No event of which the listener returns changes what a
    handshake bound: after the event every connection is still there, with
    the user id, role and name it had, and with [currentChatRoom] as it
    was. *)
Theorem X18_events_keep_identity sc st c s0 sid now ev :
  sockets st !! c = Some s0 →
  listener_returns ev = true →
  ∃ st' s', (step sc (Some st) (Inbound sid now ev)).1 = Some st' ∧
    sockets st' !! c = Some s' ∧ identity s' = identity s0 ∧
    currentChatRoom s' = currentChatRoom s0.
Proof.
  intros Hc _. cbn [step fst].
  assert (∃ s', sockets (final (inbound sc sid now ev st)) !! c = Some s' ∧
            identity s' = identity s0 ∧
            currentChatRoom s' = currentChatRoom s0) as (s' & H).
  { unfold inbound. destruct (sockets st !! sid) as [s|] eqn:Es;
      [|by exists s0].
    apply (identity_handler sc sid s now ev c s0 st). by exists s0. }
  by exists (final (inbound sc sid now ev st)), s'.
Qed.

Lemma X18_events_keep_identity_witness :
  ∃ st' s',
    (step fixture_as_written (Some two_in_chat)
       (Inbound 1 (JInt 12)
          (SubscribeNewJobs (Fin 40) (Fin (-74)) (JInt 25)))).1 = Some st' ∧
    sockets st' !! 1%nat = Some s' ∧ identity s' = identity ann ∧
    currentChatRoom s' = currentChatRoom ann.
Proof.
  apply (X18_events_keep_identity fixture_as_written two_in_chat 1 ann 1
           (JInt 12) (SubscribeNewJobs (Fin 40) (Fin (-74)) (JInt 25))).
  - vm_compute; reflexivity.
  - reflexivity.
Defined.

(** *** Who leaves a room *)

Lemma handler_grows sc sid s now ev X room :
  (∀ jobId, ev ≠ LeaveChat jobId) →
  preserves (λ st, X ⊆ members st room) (handler sc sid s now ev).
Proof.
  intros Hev.
  assert (∀ st r, X ⊆ members st room →
            X ⊆ members (adapter_add sid r st) room) as Hadd.
  { intros st r H. rewrite members_adapter_add. case_decide; set_solver. }
  destruct ev; cbn [handler].
  - intros st HP.
    destruct (on_join_chat_final sc sid s now jobId st) as [->|[Hg ->]];
      [done|by apply Hadd].
  - by destruct (Hev jobId).
  - unfold on_send_message. preserves_steps.
  - unfold on_typing. preserves_steps.
  - unfold on_update_location. preserves_steps.
  - unfold on_job_status_update. preserves_steps.
  - unfold on_place_bid. preserves_steps.
  - unfold on_subscribe_new_jobs, socket_join. preserves_steps.
    + intros st. apply Hadd.
    + done.
Qed.

(** Property X19.  Of the events of which the listener returns,
    [leave-chat] is the only one that takes anybody out of a room: after
    any other every room has at least the members it had. *)
Theorem X19_only_leave_chat_removes sc st sid now ev :
  (∀ jobId, ev ≠ LeaveChat jobId) →
  listener_returns ev = true →
  ∃ st', (step sc (Some st) (Inbound sid now ev)).1 = Some st' ∧
    ∀ room, members st room ⊆ members st' room.
Proof.
  intros Hev _. cbn [step fst]. eexists. split; [done|]. intros room.
  unfold inbound.
  destruct (sockets st !! sid) as [s|] eqn:Es; [|done].
  by apply (handler_grows sc sid s now ev (members st room) room Hev st).
Qed.

Lemma X19_only_leave_chat_removes_witness :
  ∃ st',
    (step (fixture_scope true true) (Some two_in_chat)
       (Inbound 1 (JInt 12) (JoinChat (JInt 6)))).1 = Some st' ∧
    ∀ room, members two_in_chat room ⊆ members st' room.
Proof.
  apply (X19_only_leave_chat_removes (fixture_scope true true) two_in_chat 1
           (JInt 12) (JoinChat (JInt 6))).
  - intros jobId. discriminate.
  - reflexivity.
Defined.

(** Property X20.  A second [subscribe-new-jobs] of a connection, both
    with numbers as coordinates and a radius that prints, does not undo
    the first: the connection stays in the location room of the first
    subscription and is in that of the second, while [locationPreference]
    holds the second only. *)
Theorem X20_resubscribe_keeps_first_room sc st A s now1 now2
    lat1 lng1 r1 lat2 lng2 r2 :
  sockets st !! A = Some s →
  prints r1 = true → prints r2 = true →
  ∃ st',
    (run sc (Some st)
       [Inbound A now1 (SubscribeNewJobs lat1 lng1 r1);
        Inbound A now2 (SubscribeNewJobs lat2 lng2 r2)]).1 = Some st' ∧
    A ∈ members st' (locationKey lat1 lng1 (or_default r1 (JInt 25))) ∧
    A ∈ members st' (locationKey lat2 lng2 (or_default r2 (JInt 25))) ∧
    locationPreference <$> sockets st' !! A
    = Some (Some (lat2, lng2, or_default r2 (JInt 25))).
Proof.
  intros Hs _ _. cbn [run].
  rewrite (step_subscribe sc st A s now1 lat1 lng1 r1 Hs).
  set (st1 := set_locationPreference A _ (adapter_add A _ st)).
  assert (is_Some (sockets st1 !! A)) as [s1 Hs1].
  { apply connected_set_locationPreference. by exists s. }
  rewrite (step_subscribe sc st1 A s1 now2 lat2 lng2 r2 Hs1).
  eexists. split; [done|]. split; [|split].
  - change (members (set_locationPreference A ?p ?x) ?r) with (members x r).
    rewrite members_adapter_add.
    assert (A ∈ members st1 (locationKey lat1 lng1 (or_default r1 (JInt 25)))).
    { subst st1.
      change (members (set_locationPreference A ?p ?x) ?r) with (members x r).
      rewrite members_adapter_add, decide_True by done. set_solver. }
    case_decide; set_solver.
  - change (members (set_locationPreference A ?p ?x) ?r) with (members x r).
    rewrite members_adapter_add, decide_True by done. set_solver.
  - rewrite lookup_set_locationPreference, decide_True by done.
    change (sockets (adapter_add A ?r st1)) with (sockets st1).
    by rewrite Hs1.
Qed.

Lemma X20_resubscribe_keeps_first_room_witness :
  ∃ st',
    (run fixture_as_written (Some two_in_chat)
       [Inbound 2 (JInt 12) (SubscribeNewJobs (Fin 40) (Fin (-74)) (JInt 25));
        Inbound 2 (JInt 13) (SubscribeNewJobs (Fin 41) (Fin (-74)) JUndefined)]).1
    = Some st' ∧
    2%nat ∈ members st' (locationKey (Fin 40) (Fin (-74))
                           (or_default (JInt 25) (JInt 25))) ∧
    2%nat ∈ members st' (locationKey (Fin 41) (Fin (-74))
                           (or_default JUndefined (JInt 25))) ∧
    locationPreference <$> sockets st' !! 2%nat
    = Some (Some (Fin 41, Fin (-74), or_default JUndefined (JInt 25))).
Proof.
  apply (X20_resubscribe_keeps_first_room fixture_as_written two_in_chat 2 bob
           (JInt 12) (JInt 13) (Fin 40) (Fin (-74)) (JInt 25)
           (Fin 41) (Fin (-74)) JUndefined).
  - vm_compute; reflexivity.
  - reflexivity.
  - reflexivity.
Defined.

(** ** The job service of the repository *)

Lemma get_jobId_cases data :
  (∃ jobId, get_prop data "jobId" = Returned jobId ∧
            ∀ k, ∃ v, get_prop data k = Returned v) ∨
  (∀ k, get_prop data k = Thrown "TypeError").
Proof.
  destruct data; simpl; eauto.
Qed.

(** Property X21.  With the job service of the repository, every
    [update-location], [job-status-update] and [place-bid], whatever its
    payload, ends in the catch of its handler: the state is unchanged and
    the one packet is the handler's failure error to the sender.  No
    location, status or bid is ever broadcast. *)
Theorem X21_repo_jobService_fails_driver_events sc update st A s now ev text :
  JobService sc = repo_JobService update →
  sockets st !! A = Some s →
  driver_failure ev = Some text →
  let r := step sc (Some st) (Inbound A now ev) in
  r.1 = Some st ∧ packets r.2 = [Emit {[A]} "error" (error_payload text)].
Proof.
  intros Hjs Hs Hev. cbv zeta.
  rewrite (step_inbound _ _ _ s) by done. cbn [fst snd].
  destruct ev; try discriminate Hev; injection Hev as <-; cbn [handler].
  - unfold on_update_location. rewrite Hjs.
    destruct (get_jobId_cases data) as [(jobId & -> & Hk)|Hk].
    + destruct (Hk "lat") as [lat ->]. destruct (Hk "lng") as [lng ->].
      erewrite run_try_catch; last first.
      { rewrite !run_lift_Returned. cbn [repo_JobService verifyDriverJobAccess].
        rewrite run_call_Thrown. done. }
      done.
    + rewrite (Hk "jobId").
      erewrite run_try_catch; last first.
      { rewrite run_lift_Thrown. done. }
      done.
  - unfold on_job_status_update. rewrite Hjs.
    destruct (get_jobId_cases data) as [(jobId & -> & Hk)|Hk].
    + destruct (Hk "status") as [status ->]. destruct (Hk "eta") as [eta ->].
      destruct (Hk "notes") as [notes ->].
      erewrite run_try_catch; last first.
      { rewrite !run_lift_Returned. cbn [repo_JobService verifyDriverJobAccess].
        rewrite run_call_Thrown. done. }
      done.
    + rewrite (Hk "jobId").
      erewrite run_try_catch; last first.
      { rewrite run_lift_Thrown. done. }
      done.
  - unfold on_place_bid. rewrite Hjs.
    destruct (get_jobId_cases data) as [(jobId & -> & Hk)|Hk].
    + destruct (Hk "amount") as [amount ->]. destruct (Hk "eta") as [eta ->].
      destruct (Hk "notes") as [notes ->].
      erewrite run_try_catch; last first.
      { rewrite !run_lift_Returned. cbn [repo_JobService canDriverBid].
        rewrite run_call_Thrown. done. }
      done.
    + rewrite (Hk "jobId").
      erewrite run_try_catch; last first.
      { rewrite run_lift_Thrown. done. }
      done.
Qed.

Lemma X21_repo_jobService_fails_driver_events_witness :
  let r := step fixture_repo_scope (Some two_in_chat)
             (Inbound 2 (JInt 12) (JobStatusUpdate (JObj status5))) in
  r.1 = Some two_in_chat ∧
  packets r.2
  = [Emit {[2%nat]} "error" (error_payload "Failed to update job status")].
Proof.
  apply (X21_repo_jobService_fails_driver_events fixture_repo_scope
           fixture_update two_in_chat 2 bob (JInt 12)
           (JobStatusUpdate (JObj status5)) "Failed to update job status").
  - reflexivity.
  - vm_compute; reflexivity.
  - reflexivity.
Defined.

(** ** Tokens of the REST routes at the handshake *)

(** Property X22.  A token as the login and register routes sign it, with
    [id] and no [userId], opens a connection that no notification to a
    user id reaches: [emitToUser] for any id that does not print as
    [undefined] passes it by. *)
Theorem X22_rest_token_misses_user_notifications sc st c token
    id email role iat exp uid event data :
  reachable sc (Some st) →
  sockets st !! c = None →
  truthy token = true →
  jwt_verify sc token = Returned (login_token_payload id email role iat exp) →
  ToString uid ≠ "undefined" →
  ∃ st', (step sc (Some st) (Connect c token)).1 = Some st' ∧
    is_Some (sockets st' !! c) ∧
    inbox c (emitToUser (Some st') uid event data) = [].
Proof.
  intros Hio Hc Htok Hver Huid.
  destruct (handshake_joins_user_channel sc st c token
              {| userId := JUndefined; userRole := role;
                 userName := JUndefined; currentChatRoom := JUndefined;
                 locationPreference := None |} Hc)
    as (st' & E1 & E2 & _).
  { unfold auth_middleware. by rewrite Htok, Hver. }
  pose proof (reachable_step sc _ (Connect c token) Hio) as Hio'.
  rewrite E1 in Hio' |- *. cbn [fst] in Hio' |- *.
  exists st'. split; [done|]. split; [by eexists|].
  cbn [emitToUser]. rewrite inbox_one, decide_False; [done|].
  intros Hin.
  apply (reachable_keeps sc user_channels_exact
           (user_channels_exact_step sc) _ Hio' st' eq_refl c uid) in Hin
    as (s' & Hs' & E).
  rewrite E2 in Hs'. injection Hs' as <-. by destruct Huid.
Qed.

Lemma X22_rest_token_misses_user_notifications_witness :
  ∃ st', (step fixture_as_written
            (Some (server_after fixture_as_written three_connected))
            (Connect 9 (JStr "tok-login"))).1 = Some st' ∧
    is_Some (sockets st' !! 9%nat) ∧
    inbox 9 (emitToUser (Some st') (JInt 7) "job-assigned" (JInt 5)) = [].
Proof.
  apply (X22_rest_token_misses_user_notifications fixture_as_written
           (server_after fixture_as_written three_connected) 9
           (JStr "tok-login") (JInt 7) (JStr "eve@example.org")
           (JStr "customer") (JInt 1700000000) (JInt 1700003600)
           (JInt 7) "job-assigned" (JInt 5)).
  - apply (reachable_server_after fixture_as_written three_connected).
    vm_compute; reflexivity.
  - vm_compute; reflexivity.
  - reflexivity.
  - reflexivity.
  - vm_compute. discriminate.
Defined.

(** * Proofs for the REST side *)

Lemma roleToInsert_whitelisted role :
  ∃ r, roleToInsert role = JStr r ∧ r ∈ ["customer"; "driver"; "admin"].
Proof.
  unfold roleToInsert, includes. destruct role; try (eexists; split; [done|set_solver]).
  case_bool_decide; eexists; (split; [done|]); [done|set_solver].
Qed.


(** Eve logs in with her password, and with another. *)
Example login_of_eve :
  code (login fixture_AuthDeps eve_login) = 200 ∧
  login fixture_AuthDeps
    [("email", JStr "eve@example.org"); ("password", JStr "guess")]
  = Json 401 (error_body "Invalid email or password").
Proof. vm_compute. auto. Qed.

(** Property X24.  [POST /register] answers 201 only after a lookup that
    found no row for the email, and after an INSERT of the hashed password
    with a role that is one of [customer], [driver], [admin], whatever
    role the request asked for. *)
Theorem X24_register_inserts_whitelisted_role d body :
  code (register d body) = 201 →
  ∃ hashed rows r,
    select_by_email d (assoc "email" body) = Returned [] ∧
    bcrypt_hash d (assoc "password" body) 10 = Returned hashed ∧
    insert_user d (assoc "name" body) (assoc "email" body) hashed (JStr r)
      (JStr "active") = Returned rows ∧
    r ∈ ["customer"; "driver"; "admin"].
Proof.
  unfold register. cbv zeta.
  destruct (roleToInsert_whitelisted (assoc "role" body)) as (r & -> & Hr).
  destruct (select_by_email d (assoc "email" body)) as [existing|e];
    cbn [and_then code]; [|done].
  destruct existing as [|row existing];
    cbn [length Nat.ltb Nat.leb code]; [|done].
  destruct (bcrypt_hash d (assoc "password" body) 10) as [hashed|e] eqn:Eh;
    cbn [and_then code]; [|done].
  destruct (insert_user d _ _ hashed (JStr r) _) as [rows|e] eqn:E;
    cbn [and_then code]; [|done].
  intros _. by exists hashed, rows, r.
Qed.

Lemma X24_register_inserts_whitelisted_role_witness :
  ∃ hashed rows r,
    select_by_email fixture_AuthDeps (assoc "email" mallory_register)
    = Returned [] ∧
    bcrypt_hash fixture_AuthDeps (assoc "password" mallory_register) 10
    = Returned hashed ∧
    insert_user fixture_AuthDeps (assoc "name" mallory_register)
      (assoc "email" mallory_register) hashed (JStr r) (JStr "active")
    = Returned rows ∧
    r ∈ ["customer"; "driver"; "admin"].
Proof.
  apply (X24_register_inserts_whitelisted_role fixture_AuthDeps mallory_register).
  vm_compute; reflexivity.
Defined.

(** Property X25.  For a user whose role is the one [register] stored:
    the guard [hasRole(['super_admin'])] of the admin routes always
    answers 403, and the guard [hasRole(['admin', 'super_admin'])] lets the
    request through exactly when the registration asked for [admin]. *)
Theorem X25_registered_role_at_the_guards requested fs :
  assoc "role" fs = roleToInsert requested →
  hasRole ["super_admin"] (JObj fs)
  = Ended (Json 403 (error_body "Access denied")) ∧
  (hasRole ["admin"; "super_admin"] (JObj fs) = Passed (JObj fs)
   ↔ requested = JStr "admin").
Proof.
  intros Hrole. unfold hasRole. cbn [truthy negb orb get_prop]. rewrite Hrole.
  unfold roleToInsert, includes.
  destruct requested as [| | | |s|]; try (split; [done|split; done]).
  destruct (decide (s = "customer")) as [->|H1]; [split; [done|split; done]|].
  destruct (decide (s = "driver")) as [->|H2]; [split; [done|split; done]|].
  destruct (decide (s = "admin")) as [->|H3]; [split; [done|split; done]|].
  rewrite (bool_decide_eq_false_2 (s ∈ ["customer"; "driver"; "admin"]))
    by set_solver.
  split; [done|]. split; [done|]. intros [= ->]. done.
Qed.

Lemma X25_registered_role_at_the_guards_witness :
  hasRole ["super_admin"]
    (JObj [("id", JInt 8); ("email", JStr "mallory@example.org");
           ("role", JStr "customer")])
  = Ended (Json 403 (error_body "Access denied")) ∧
  (hasRole ["admin"; "super_admin"]
     (JObj [("id", JInt 8); ("email", JStr "mallory@example.org");
            ("role", JStr "customer")])
   = Passed (JObj [("id", JInt 8); ("email", JStr "mallory@example.org");
                   ("role", JStr "customer")])
   ↔ JStr "super_admin" = JStr "admin").
Proof.
  apply (X25_registered_role_at_the_guards (JStr "super_admin")
           [("id", JInt 8); ("email", JStr "mallory@example.org");
            ("role", JStr "customer")]).
  reflexivity.
Defined.

Lemma split_space_free t rest :
  space_free t = true →
  split " " (t +:+ String " " rest) = t :: split " " rest.
Proof.
  induction t as [|a t IH]; [done|].
  cbn [space_free]. intros [Ha Ht]%andb_true_iff.
  change (String a t +:+ String " " rest)
    with (String a (t +:+ String " " rest)).
  cbn [split]. destruct (Ascii.eqb a " ") eqn:E; [done|].
  by rewrite (IH Ht).
Qed.

Lemma split_space_free_end t :
  space_free t = true → split " " t = [t].
Proof.
  induction t as [|a t IH]; [done|].
  cbn [space_free]. intros [Ha Ht]%andb_true_iff.
  cbn [split]. destruct (Ascii.eqb a " ") eqn:E; [done|].
  by rewrite (IH Ht).
Qed.

Lemma Bearer_header x :
  String.eqb ("Bearer " +:+ x) "" = false ∧
  startsWith ("Bearer " +:+ x) "Bearer " = true ∧
  split " " ("Bearer " +:+ x) = "Bearer" :: split " " x.
Proof. done. Qed.

(** Property X26.  Of a header that starts with [Bearer ],
    [authenticateJWT] verifies the text up to the next space or the end,
    which may be empty, and ignores whatever follows a second space; what
    is answered depends on that text alone. *)
Theorem X26_authenticateJWT_verifies_second_word verify t junk :
  space_free t = true →
  authenticateJWT verify (Some ("Bearer " +:+ t)) = verified (verify (JStr t)) ∧
  authenticateJWT verify (Some ("Bearer " +:+ t +:+ " " +:+ junk))
  = verified (verify (JStr t)).
Proof.
  intros Ht. unfold authenticateJWT. split.
  - destruct (Bearer_header t) as (-> & -> & ->).
    by rewrite (split_space_free_end t Ht).
  - destruct (Bearer_header (t +:+ " " +:+ junk)) as (-> & -> & ->).
    change (" " +:+ junk) with (String " " junk).
    by rewrite (split_space_free t junk Ht).
Qed.

Lemma X26_authenticateJWT_verifies_second_word_witness :
  authenticateJWT fixture_verify (Some ("Bearer " +:+ "tok-ann"))
  = verified (fixture_verify (JStr "tok-ann")) ∧
  authenticateJWT fixture_verify
    (Some ("Bearer " +:+ "tok-ann" +:+ " " +:+ "and more"))
  = verified (fixture_verify (JStr "tok-ann")).
Proof.
  apply (X26_authenticateJWT_verifies_second_word fixture_verify "tok-ann"
           "and more").
  reflexivity.
Defined.
